(** * unishorten: a shallow embedding of [shorten.py]

    The Python program inverts the "mapped" entries of the Unicode IDNA
    mapping table and searches a rewrite graph for a shorter string that
    normalises to a given target.  This file embeds the program's
    functions ([parse_table], [create_lookup], [optimize], the [DAG]
    class and [shorten_optimal]) and states the properties of its
    specification over them. *)

From Stdlib Require Import ZArith String Ascii.
From stdpp Require Import base option list gmap relations.

Local Open Scope Z_scope.
Local Open Scope nat_scope.

(** ** Python values *)

(** A Python [str] is a sequence of Unicode code points. *)
Abbreviation pystr := (list N).

(** ASCII literals, for the examples. *)
Definition lit (s : string) : pystr :=
  map N_of_ascii (list_ascii_of_string s).

(** A Python [dict] iterates in insertion order; assigning to a key that
    is present keeps its position.  The dictionaries the program iterates
    over are association lists with that update. *)
Section Dict.
Context {K V : Type} `{EqDecision K}.

Fixpoint dict_get (d : list (K * V)) (k : K) : option V :=
  match d with
  | [] => None
  | (k', v) :: d' => if decide (k' = k) then Some v else dict_get d' k
  end.

Fixpoint dict_set (d : list (K * V)) (k : K) (v : V) : list (K * V) :=
  match d with
  | [] => [(k, v)]
  | (k', v') :: d' =>
      if decide (k' = k) then (k, v) :: d' else (k', v') :: dict_set d' k v
  end.

Definition keys (d : list (K * V)) : list K := map fst d.
End Dict.

(** The exceptions the modelled code can raise, and the outcome of a run:
    a value, an exception, or a loop still running when the fuel ends. *)
Inductive exn :=
| IndexError | KeyError | TypeError | AttributeError | ValueError
| UnicodeEncodeError.

Inductive result (A : Type) :=
| Ret (a : A)
| Raise (e : exn)
| OutOfFuel.
Arguments Ret {A} a.
Arguments Raise {A} e.
Arguments OutOfFuel {A}.

#[global] Instance result_bind : MBind result := fun A B f r =>
  match r with
  | Ret a => f a
  | Raise e => Raise e
  | OutOfFuel => OutOfFuel
  end.

Definition of_option {A} (e : exn) (o : option A) : result A :=
  match o with Some a => Ret a | None => Raise e end.

(** [for x in l: st = body(st, x)] with a body that can raise. *)
Fixpoint for_each {A S} (l : list A) (body : S -> A -> result S) (st : S)
  : result S :=
  match l with
  | [] => Ret st
  | x :: l' => st' ← body st x; for_each l' body st'
  end.

(** [[f(x) for x in l]] with an [f] that can raise. *)
Fixpoint map_result {A B} (f : A → result B) (l : list A) : result (list B) :=
  match l with
  | [] => Ret []
  | x :: l' => y ← f x; ys ← map_result f l'; Ret (y :: ys)
  end.

(** [l[i]] for a Python list: a negative index counts from the end. *)
Definition py_index {A} (l : list A) (i : Z) : result A :=
  if (i <? 0)%Z then
    if (i <? - Z.of_nat (length l))%Z then Raise IndexError
    else of_option IndexError (l !! Z.to_nat (Z.of_nat (length l) + i))
  else of_option IndexError (l !! Z.to_nat i).

(** ** Methods of [str] *)

(** [s.find(sub, start)] for [0 <= start]. *)
Fixpoint is_prefix (p s : pystr) : bool :=
  match p, s with
  | [], _ => true
  | _ :: _, [] => false
  | a :: p', b :: s' => if decide (a = b) then is_prefix p' s' else false
  end.

Fixpoint find_from (sub s : pystr) (i : nat) : option nat :=
  if is_prefix sub s then Some i
  else match s with
       | [] => None
       | _ :: s' => find_from sub s' (S i)
       end.

Definition find (s sub : pystr) (start : Z) : Z :=
  if (Z.of_nat (length s) <? start)%Z then (-1)%Z
  else match find_from sub (drop (Z.to_nat start) s) (Z.to_nat start) with
       | Some i => Z.of_nat i
       | None => (-1)%Z
       end.

(** [sub in s]. *)
Definition contains (sub s : pystr) : bool :=
  negb (find s sub 0 =? -1)%Z.

(** [str.isspace]: Unicode white space, which is also what [\s] matches. *)
Definition is_space (c : N) : bool :=
  ((9 <=? c) && (c <=? 13) || (28 <=? c) && (c <=? 32)
   || (c =? 133) || (c =? 160) || (c =? 5760)
   || (8192 <=? c) && (c <=? 8202) || (c =? 8232) || (c =? 8233)
   || (c =? 8239) || (c =? 8287) || (c =? 12288))%N.

(** [s.strip()]. *)
Fixpoint lstrip (s : pystr) : pystr :=
  match s with
  | c :: s' => if is_space c then lstrip s' else s
  | [] => []
  end.

Definition strip (s : pystr) : pystr := rev (lstrip (rev (lstrip s))).

(** [s.split(sep)] for a non-empty [sep]; [skip] counts the characters
    of a separator that was recognised and is still to be passed. *)
Fixpoint split_aux (sep : pystr) (skip : nat) (cur : pystr) (s : pystr)
  : list pystr :=
  match s with
  | [] => [cur]
  | c :: s' =>
      match skip with
      | S skip' => split_aux sep skip' cur s'
      | O =>
          if is_prefix sep s
          then cur :: split_aux sep (length sep - 1) [] s'
          else split_aux sep 0 (cur ++ [c]) s'
      end
  end.

Definition split (s sep : pystr) : list pystr := split_aux sep 0 [] s.

(** [int(code, 16)] on strings of hexadecimal digits, which is what the
    pattern of line 36 lets through. *)
Definition hex_digit (c : N) : option N :=
  if ((48 <=? c) && (c <=? 57))%N then Some (c - 48)%N
  else if ((65 <=? c) && (c <=? 70))%N then Some (c - 55)%N
  else if ((97 <=? c) && (c <=? 102))%N then Some (c - 87)%N
  else None.

Definition int16 (code : pystr) : result N :=
  match code with
  | [] => Raise ValueError
  | _ =>
      for_each code
        (λ acc c, d ← of_option ValueError (hex_digit c); Ret (16 * acc + d)%N)
        0%N
  end.

(** [range(start, stop)]. *)
Definition range (start stop : N) : list N :=
  N.of_nat <$> seq (N.to_nat start) (N.to_nat (stop - start)).

(** ** The part of [re] that the program uses *)

(** A backtracking matcher with greedy and lazy repetition and capturing
    groups.  [$] matches at the end and before a final newline; [.] is
    the set of all characters but the newline. *)
Inductive regex :=
| Bol                                  (* ^ *)
| Eol                                  (* $ *)
| Class (p : N → bool)                 (* one character of a set *)
| Seq (r1 r2 : regex)
| Star (greedy : bool) (r : regex)     (* r* and r*? *)
| Opt (r : regex)                      (* r? *)
| Group (n : nat) (r : regex).

Definition Plus (greedy : bool) (r : regex) : regex := Seq r (Star greedy r).
Definition AtLeast4 (r : regex) : regex :=
  Seq r (Seq r (Seq r (Seq r (Star true r)))).
Definition Chr (a : ascii) : regex := Class (N.eqb (N_of_ascii a)).

(** [rmatch r i rest caps k]: match [r] at offset [i], where [rest] is
    left of the line, and go on with [k]; the first success wins. *)
Fixpoint rmatch (r : regex) (i : nat) (rest : pystr) (caps : gmap nat pystr)
    (k : nat → pystr → gmap nat pystr → option (gmap nat pystr))
  : option (gmap nat pystr) :=
  match r with
  | Bol => if i =? 0 then k i rest caps else None
  | Eol =>
      match rest with
      | [] => k i rest caps
      | [c] => if (c =? 10)%N then k i rest caps else None
      | _ => None
      end
  | Class p =>
      match rest with
      | c :: rest' => if p c then k (S i) rest' caps else None
      | [] => None
      end
  | Seq r1 r2 =>
      rmatch r1 i rest caps (λ i' rest' caps', rmatch r2 i' rest' caps' k)
  | Opt r' =>
      match rmatch r' i rest caps k with
      | Some c => Some c
      | None => k i rest caps
      end
  | Group n r' =>
      rmatch r' i rest caps
             (λ i' rest' caps', k i' rest' (<[n := take (i' - i) rest]> caps'))
  | Star greedy r' =>
      (fix loop (fuel i : nat) (rest : pystr) (caps : gmap nat pystr) :=
         match fuel with
         | O => k i rest caps
         | S fuel' =>
             let more :=
               rmatch r' i rest caps
                      (λ i' rest' caps',
                         if i <? i' then loop fuel' i' rest' caps' else None) in
             if greedy then
               match more with Some c => Some c | None => k i rest caps end
             else
               match k i rest caps with Some c => Some c | None => more end
         end) (length rest) i rest caps
  end.

(** [re.match(pattern, line)]: the captures of a match at the start. *)
Definition re_match (r : regex) (line : pystr) : option (gmap nat pystr) :=
  rmatch r 0 line ∅ (λ _ _ caps, Some caps).

(** ** [int2unicode], [code2unicode] and [parse_table] *)

(** Lines 20-25.  [chr] rejects what lies beyond U+10FFFF. *)
Definition int2unicode (i : N) : result pystr :=
  if (i <=? 1114111)%N then Ret [i] else Raise ValueError.

Definition code2unicode (code : pystr) : result pystr :=
  i ← int16 code; int2unicode i.

(** The character sets of the pattern. *)
Definition is_hex (c : N) : bool :=
  ((48 <=? c) && (c <=? 57) || (65 <=? c) && (c <=? 70))%N.

Definition not_semicolon_hash (c : N) : bool :=
  negb ((c =? 59) || (c =? 35))%N.

Definition not_newline (c : N) : bool := negb (c =? 10)%N.

(** Line 36:
    [^([0-9A-F]{4,}(?:\.\.[0-9A-F]{4,})?)\s+;\s+([^;#]+?)\s+(?:;((?: [0-9A-F]{4,})+)\s+)?#.+$] *)
Definition line_pattern : regex :=
  let hex4 := AtLeast4 (Class is_hex) in
  let spaces := Plus true (Class is_space) in
  Seq Bol
  (Seq (Group 1 (Seq hex4 (Opt (Seq (Chr ".") (Seq (Chr ".") hex4)))))
  (Seq spaces
  (Seq (Chr ";")
  (Seq spaces
  (Seq (Group 2 (Plus false (Class not_semicolon_hash)))
  (Seq spaces
  (Seq (Opt (Seq (Chr ";")
            (Seq (Group 3 (Plus true (Seq (Chr " ") hex4)))
                 spaces)))
  (Seq (Chr "#")
  (Seq (Plus true (Class not_newline))
       Eol))))))))).

(** Lines 36-57: one line of the table. *)
Definition parse_line (entries : list (pystr * pystr)) (line : pystr)
  : result (list (pystr * pystr)) :=
  match re_match line_pattern line with
  | None => Ret entries
  | Some parts =>
      chars ← of_option TypeError (parts !! 1);
      state ← of_option AttributeError (strip <$> parts !! 2);
      if decide (state ≠ lit "mapped") then Ret entries
      else
        chars ←
          (if contains (lit "..") chars then
             bounds ← map_result int16 (split chars (lit ".."));
             match bounds with
             | [start; end_] => map_result int2unicode (range start (end_ + 1))
             | _ => Raise ValueError
             end
           else c ← code2unicode chars; Ret [c]);
        mapping ← of_option AttributeError
                    ((λ p, split (strip p) (lit " ")) <$> parts !! 3);
        for_each chars
          (λ entries char,
             out ← map_result code2unicode mapping;
             Ret (dict_set entries char (concat out)))
          entries
  end.

(** Lines 28-59.  The newline is U+000A. *)
Definition parse_table (table : pystr) : result (list (pystr * pystr)) :=
  let lines := split table [10%N] in
  let lines := drop 11 lines in
  for_each lines parse_line [].

(** ** [create_lookup] and [optimize] *)

(** Lines 62-69.  [parsed] maps a source character to its output. *)
Definition create_lookup (parsed : list (pystr * pystr))
  : list (pystr * list pystr) :=
  fold_left
    (λ reverse '(key, value),
       let reverse :=
         match dict_get reverse value with
         | None => dict_set reverse value []
         | Some _ => reverse
         end in
       dict_set reverse value (default [] (dict_get reverse value) ++ [key]))
    parsed [].

(** Lines 77-83: one shortcut of the key [long]. *)
Definition keep_shortest (long : pystr) (optimized : list (pystr * list pystr))
    (shortcut : pystr) : result (list (pystr * list pystr)) :=
  if length shortcut <? length long then
    match dict_get optimized long with
    | None => Ret (dict_set optimized long [shortcut])
    | Some kept =>
        first ← of_option IndexError (kept !! 0);
        if length shortcut <? length first
        then Ret (dict_set optimized long [shortcut])
        else if length shortcut =? length first
             then Ret (dict_set optimized long (kept ++ [shortcut]))
             else Ret optimized
    end
  else Ret optimized.

(** Lines 72-85. *)
Definition optimize (lookup : list (pystr * list pystr))
  : result (list (pystr * list pystr)) :=
  for_each lookup
    (λ optimized '(long, shortcuts),
       for_each shortcuts (keep_shortest long) optimized)
    [].

(** ** [class Node] and [class DAG] *)

(** A node compares and hashes by [id]; the dictionaries keyed by nodes
    are maps from ids. *)
Record Node := mkNode { value : option pystr; id : nat }.

Record DAG := mkDAG {
  nodes : list Node;
  edges_to : gmap nat (list Node);
  edges_from : gmap nat (list Node)
}.

Definition DAG_init : DAG := mkDAG [] ∅ ∅.

Definition add_node (g : DAG) (v : option pystr) : DAG * Node :=
  let node := mkNode v (length (nodes g)) in
  (mkDAG (nodes g ++ [node]) (edges_to g) (edges_from g), node).

Definition append_at (m : gmap nat (list Node)) (k : Node) (x : Node)
  : gmap nat (list Node) :=
  <[id k := default [] (m !! id k) ++ [x]]> m.

Definition add_edge (g : DAG) (node_from node_to : Node) : DAG :=
  mkDAG (nodes g)
        (append_at (edges_to g) node_to node_from)
        (append_at (edges_from g) node_from node_to).

Definition predecessors (g : DAG) (node : Node) : list Node :=
  default [] (edges_to g !! id node).

Definition successors (g : DAG) (node : Node) : list Node :=
  default [] (edges_from g !! id node).

(** ** [shorten_optimal] *)

(** Lines 146-159: the start node, one node per character, the end node. *)
Definition chain_step (st : DAG * list Node * Node) (char : N)
  : DAG * list Node * Node :=
  let '(g, char_nodes, last) := st in
  let '(g, n) := add_node g (Some [char]) in
  (add_edge g last n, char_nodes ++ [n], n).

Definition build_chain (string : pystr) : DAG * Node * list Node * Node :=
  let '(g, start) := add_node DAG_init None in
  let '(g, char_nodes, last) := fold_left chain_step string (g, [], start) in
  let '(g, end_) := add_node g None in
  (add_edge g last end_, start, char_nodes, end_).

(** Lines 177-180: link the shortcut node [n] for one occurrence. *)
Definition link (g : DAG) (n start_node end_node : Node) : DAG :=
  fold_left
    (fun g from_node =>
       fold_left
         (fun g to_node => add_edge (add_edge g from_node n) n to_node)
         (successors g end_node) g)
    (predecessors g start_node) g.

(** Lines 168-182: the [while True] loop over the occurrences of [long]. *)
Fixpoint occurrences (fuel : nat) (string long : pystr) (char_nodes : list Node)
    (n : Node) (g : DAG) (start_pos : Z) : result DAG :=
  match fuel with
  | O => OutOfFuel
  | S fuel' =>
      let start_pos := find string long start_pos in
      if (start_pos =? -1)%Z then Ret g
      else
        start_node ← py_index char_nodes start_pos;
        end_node ← py_index char_nodes
                      (start_pos + Z.of_nat (length long) - 1)%Z;
        occurrences fuel' string long char_nodes n
                    (link g n start_node end_node) (start_pos + 1)%Z
  end.

(** Lines 162-182: one shortcut node per entry of [lookup]. *)
Definition add_shortcut (fuel : nat) (string : pystr) (char_nodes : list Node)
    (g : DAG) (item : pystr * list pystr) : result DAG :=
  let '(long, shortcuts) := item in
  shortcut ← of_option IndexError (shortcuts !! 0);
  let '(g, n) := add_node g (Some shortcut) in
  occurrences fuel string long char_nodes n g 0%Z.

Definition build_graph (fuel : nat) (lookup : list (pystr * list pystr))
    (string : pystr) : result (DAG * Node * Node) :=
  let '(g, start, char_nodes, end_) := build_chain string in
  g ← for_each lookup (add_shortcut fuel string char_nodes) g;
  Ret (g, start, end_).

(** Lines 196-202: [succ] is first seen, or reached over fewer edges. *)
Definition improve (current : Node) (distance : nat)
    (pred : gmap nat (option Node)) (dist : gmap nat nat) (succ : Node)
  : gmap nat (option Node) * gmap nat nat :=
  match dist !! id succ with
  | Some d' =>
      if distance <? d'
      then (<[id succ := Some current]> pred, <[id succ := distance]> dist)
      else (pred, dist)
  | None => (<[id succ := Some current]> pred, <[id succ := distance]> dist)
  end.

(** Lines 194-204: one successor of the dequeued node.  The successor
    is appended to the queue whether it was seen before or not. *)
Definition relax (current : Node)
    (st : gmap nat (option Node) * gmap nat nat * list Node) (succ : Node)
  : result (gmap nat (option Node) * gmap nat nat * list Node) :=
  let '(pred, dist, q) := st in
  d ← of_option KeyError (dist !! id current);
  let '(pred, dist) := improve current (d + 1) pred dist succ in
  Ret (pred, dist, q ++ [succ]).

(** Lines 190-204: the search loop ([print] writes to the console only). *)
Fixpoint bfs (fuel : nat) (g : DAG) (pred : gmap nat (option Node))
    (dist : gmap nat nat) (q : list Node)
  : result (gmap nat (option Node) * gmap nat nat) :=
  match q with
  | [] => Ret (pred, dist)
  | current :: q =>
      match fuel with
      | O => OutOfFuel
      | S fuel' =>
          '(pred, dist, q) ←
            for_each (successors g current) (relax current) (pred, dist, q);
          bfs fuel' g pred dist q
      end
  end.

(** Lines 207-211: walk the predecessors back from [end]. *)
Fixpoint reconstruct (fuel : nat) (pred : gmap nat (option Node))
    (current : option Node) (path : list Node) : result (list Node) :=
  match current with
  | None => Ret path
  | Some c =>
      match fuel with
      | O => OutOfFuel
      | S fuel' =>
          p ← of_option KeyError (pred !! id c);
          reconstruct fuel' pred p (c :: path)
      end
  end.

(** [path[1:-1]] and [''.join(n.value for n in ...)]. *)
Definition inner {A} (l : list A) : list A := removelast (tail l).

Fixpoint join_values (l : list Node) : result pystr :=
  match l with
  | [] => Ret []
  | n :: l' =>
      v ← of_option TypeError (value n);
      rest ← join_values l';
      Ret (v ++ rest)
  end.

Definition shorten_optimal (fuel : nat) (lookup : list (pystr * list pystr))
    (string : pystr) : result pystr :=
  '(g, start, end_) ← build_graph fuel lookup string;
  '(pred, _) ← bfs fuel g {[id start := None]} {[id start := 0]} [start];
  path ← reconstruct fuel pred (Some end_) [];
  join_values (inner path).

(** ** The notions of the specification *)

(** An optimized index is an index that [optimize] returns. *)
Definition is_optimized (idx : list (pystr * list pystr)) : Prop :=
  ∃ lookup, optimize lookup = Ret idx.

(** The contract of the optimizer in the specification's words: of the
    shortcuts strictly shorter than the key, those of minimal length, in
    the order they were seen; no entry when no shortcut is shorter. *)
Definition shorter_than (long : pystr) (shortcuts : list pystr) : list pystr :=
  filter (λ sc, length sc < length long) shortcuts.

Definition min_length (l : list pystr) : nat :=
  foldr Nat.min (length (default [] (head l))) (length <$> l).

Definition shortest (l : list pystr) : list pystr :=
  filter (λ sc, length sc = min_length l) l.

Definition contract_entry (long : pystr) (shortcuts : list pystr)
  : list (pystr * list pystr) :=
  match shortest (shorter_than long shortcuts) with
  | [] => []
  | kept => [(long, kept)]
  end.

Definition optimize_contract (lookup : list (pystr * list pystr))
  : list (pystr * list pystr) :=
  lookup ≫= (λ '(long, shortcuts), contract_entry long shortcuts).

(** [sub] is a contiguous substring of [s]. *)
Definition substring_of (sub s : pystr) : Prop :=
  ∃ l1 l2, s = l1 ++ sub ++ l2.

(** The edges of the graph, on node ids, and what the comment above
    [class DAG] promises. *)
Definition edge (g : DAG) (u v : nat) : Prop :=
  v ∈ id <$> default [] (edges_from g !! u).

Definition acyclic (g : DAG) : Prop := ∀ v, ¬ tc (edge g) v v.

(** The normalisation of the specification: every code point that has a
    "mapped" entry is replaced by its output, again and again, until
    nothing changes. *)
Definition normalize_step (parsed : list (pystr * pystr)) (s : pystr) : pystr :=
  s ≫= (λ c, default [c] (dict_get parsed [c])).

Definition normal_form (parsed : list (pystr * pystr)) (s t : pystr) : Prop :=
  ∃ n, Nat.iter n (normalize_step parsed) s = t ∧ normalize_step parsed t = t.

(** ** Notions of the proofs *)

(** What every entry of an optimized index looks like. *)
Definition entry_ok (item : pystr * list pystr) : Prop :=
  match item.2 with
  | [] => False
  | x :: xs =>
      length x < length item.1 ∧ Forall (λ y, length y = length x) xs
  end.

Definition shaped (idx : list (pystr * list pystr)) : Prop :=
  NoDup (keys idx) ∧ Forall entry_ok idx.

(** A set of node ids each of which has a successor in the set again. *)
Definition closed_under_succ (g : DAG) (U : list nat) : Prop :=
  Forall (λ u, Exists (λ w, id w ∈ U) (default [] (edges_from g !! u))) U.

(** The nodes of the chain for [s], in the order of their creation. *)
Definition pre (s : pystr) : list Node :=
  mkNode None 0 :: imap (λ i c, mkNode (Some [c]) (S i)) s.

Definition chain (s : pystr) : list Node :=
  pre s ++ [mkNode None (S (length s))].

(** The predecessor and distance tables once the search has gone
    through the first [i] edges of the chain [L]. *)
Fixpoint chain_pred (L : list Node) (i : nat) : gmap nat (option Node) :=
  match i with
  | O => {[0 := None]}
  | S j => <[S j := L !! j]> (chain_pred L j)
  end.

Fixpoint chain_dist (i : nat) : gmap nat nat :=
  match i with
  | O => {[0 := 0]}
  | S j => <[S j := S j]> (chain_dist j)
  end.

(** ** Running examples *)

(** The index [{"ab": ["x"]}] and the target ["cabcabc"] of the
    specification's example scenario. *)
Definition idx_ab : list (pystr * list pystr) := [(lit "ab", [lit "x"])].
Definition cabcabc : pystr := lit "cabcabc".

(** Nodes of the graph for ["cabcabc"]: [n_x] is the shortcut node. *)
Definition n_start : Node := mkNode None 0.
Definition n_c0 : Node := mkNode (Some (lit "c")) 1.
Definition n_c3 : Node := mkNode (Some (lit "c")) 4.
Definition n_c6 : Node := mkNode (Some (lit "c")) 7.
Definition n_end : Node := mkNode None 8.
Definition n_x : Node := mkNode (Some (lit "x")) 9.

Definition graph_cabcabc : DAG :=
  match build_graph 3 idx_ab cabcabc with
  | Ret (g, _, _) => g
  | _ => DAG_init
  end.

(** A reverse index with ties, longer shortcuts and a key without a
    shorter shortcut. *)
Definition lookup_ties : list (pystr * list pystr) :=
  [(lit "abc", [lit "xy"; lit "abcd"; lit "z"; lit "w"; lit "uv"]);
   (lit "q", [lit "r"]);
   (lit "de", [lit "f"])].

(** ["abcdab"] occurs in the target at 2 and at 6. *)
Definition idx_periodic : list (pystr * list pystr) :=
  [(lit "pqabcd", [lit "YYYYY"]);
   (lit "abcdab", [lit "XXXXX"]);
   (lit "cdabrs", [lit "ZZZZZ"])].

Definition target_periodic : pystr := lit "pqabcdabcdabrs".

(** Lines of the IDNA mapping table. *)
Definition nl : pystr := [10%N].

Definition line_A : pystr :=
  lit "0041          ; mapped                 ; 0061          # 1.1  LATIN CAPITAL LETTER A".

Definition line_ii : pystr :=
  lit "2171          ; mapped                 ; 0069 0069     # 1.1  SMALL ROMAN NUMERAL TWO".

(** [line_A] is the first line, [line_ii] the twelfth. *)
Definition table_A : pystr :=
  line_A ++ nl ++ concat (replicate 10 nl) ++ line_ii.

(** Eleven empty lines, then [line_ii]. *)
Definition table_ii : pystr := concat (replicate 11 nl) ++ line_ii.

(** U+2171 SMALL ROMAN NUMERAL TWO, mapped to ["ii"]. *)
Definition small_roman_two : pystr := [8561%N].
Definition parsed_ii : list (pystr * pystr) := [(small_roman_two, lit "ii")].
Definition idx_ii : list (pystr * list pystr) := [(lit "ii", [small_roman_two])].

(** ** [shorten_url] *)

(** A surrogate code point, U+D800 to U+DFFF.  A string read from
    [sys.argv] holds one for every byte that could not be decoded. *)
Definition is_surrogate (c : N) : bool := ((55296 <=? c) && (c <=? 57343))%N.

(** [s.encode('utf-8')], as far as it can fail: a surrogate has no UTF-8
    form.  This is what [print] does with its argument on a console that
    takes UTF-8, and what [quote] does with its argument. *)
Definition encode_utf8 (s : pystr) : result unit :=
  if existsb is_surrogate s then Raise UnicodeEncodeError else Ret tt.

(** Lines 216-225.  [table] is what [read_table] returned; the result is
    what the [print] calls of lines 223 and 224 show, once line 225 is
    passed: the two lengths and the shortened string.  Line 224 prints
    the shortened string itself and line 225 passes it to [quote]; both
    encode it and raise on a surrogate.  The text that [quote] returns
    is left to [urllib]. *)
Definition shorten_url (fuel : nat) (table url : pystr)
  : result (nat * nat * pystr) :=
  parsed ← parse_table table;
  let lookup := create_lookup parsed in
  optimized ← optimize lookup;
  shortened ← shorten_optimal fuel optimized url;
  _ ← encode_utf8 shortened;
  _ ← encode_utf8 shortened;
  Ret (length url, length shortened, shortened).

(** ** Notions of the further properties *)

(** The keys of [parsed] whose value is [v], in the order of [parsed]. *)
Definition sources (parsed : list (pystr * pystr)) (v : pystr) : list pystr :=
  (filter (λ kv, kv.2 = v) parsed).*1.

(** A single code point of the Unicode range. *)
Definition code_point (c : pystr) : Prop := ∃ i, c = [i] ∧ (i ≤ 1114111)%N.

(** What [parse_table] keeps true of its dictionary. *)
Definition entries_ok (entries : list (pystr * pystr)) : Prop :=
  NoDup (keys entries) ∧ Forall (λ kv, code_point kv.1) entries.

(** The edge lists of a node, by its id. *)
Definition succs_of (g : DAG) (u : nat) : list Node :=
  default [] (edges_from g !! u).

Definition preds_of (g : DAG) (v : nat) : list Node :=
  default [] (edges_to g !! v).

(** What [add_node] and [add_edge] keep true of a graph: the id of a node
    is its position, the edge lists hold nodes of the graph, and the two
    edge tables mirror each other. *)
Record graph_wf (g : DAG) : Prop := {
  wf_ids : ∀ i v, nodes g !! i = Some v → id v = i;
  wf_from : ∀ u w, w ∈ succs_of g u → w ∈ nodes g;
  wf_to : ∀ v u, u ∈ preds_of g v → u ∈ nodes g;
  wf_mirror : ∀ a b, a ∈ id <$> preds_of g b ↔ b ∈ id <$> succs_of g a
}.

(** What the loop over the index keeps true of the graph for a target of
    [n] characters: the chain is there, no edge enters [start] (id 0) and
    no edge leaves [end] (id [n + 1]). *)
Record graph_inv (s : pystr) (g : DAG) : Prop := {
  inv_wf : graph_wf g;
  inv_chain : take (S (S (length s))) (nodes g) = chain s;
  inv_chain_edges : ∀ j, j ≤ length s → edge g j (S j);
  inv_sentinels : ∀ u v, edge g u v → v ≠ 0 ∧ u ≠ S (length s)
}.

(** A walk in the graph: a list of node ids, each joined to the next by
    an edge. *)
Definition walk (g : DAG) (l : list nat) : Prop :=
  ∀ i u v, l !! i = Some u → l !! S i = Some v → edge g u v.

(** What the search loop keeps true of its tables and its queue, for the
    search from the node of id [s0]; [exempt] is the node whose
    successors are being gone through, [Good] what holds of the nodes
    the loop handles. *)
Record bfs_inv (g : DAG) (s0 : nat) (Good : Node → Prop)
    (exempt : option nat) (pred : gmap nat (option Node))
    (dist : gmap nat nat) (q : list Node) : Prop := {
  bi_start : dist !! s0 = Some 0 ∧ pred !! s0 = Some None;
  bi_pred : ∀ v d, dist !! v = Some d → v ≠ s0 →
    ∃ u du, pred !! v = Some (Some u) ∧ dist !! id u = Some du
            ∧ du + 1 ≤ d ∧ edge g (id u) v ∧ Good u;
  bi_dom : ∀ v, is_Some (pred !! v) → is_Some (dist !! v);
  bi_queue : Forall (λ v, is_Some (dist !! id v) ∧ Good v) q;
  bi_closed : ∀ u du, dist !! u = Some du → Some u ≠ exempt →
    u ∈ id <$> q
    ∨ ∀ w, w ∈ succs_of g u → ∃ dw, dist !! id w = Some dw ∧ dw ≤ du + 1
}.

(** The graph and the shortest path for [{"ii": [U+2171]}] and ["iii"]. *)
Definition graph_iii : DAG :=
  match build_graph 3 idx_ii (lit "iii") with
  | Ret (g, _, _) => g
  | _ => DAG_init
  end.

Definition path_iii : list Node :=
  [mkNode None 0; mkNode (Some small_roman_two) 5; mkNode None 4].

(** The shortcuts of the specification are single code points: the
    reverse index lists, under an output string, the code points that
    map to it. *)
Definition single_shortcuts (idx : list (pystr * list pystr)) : Prop :=
  Forall (λ item, Forall (λ sc, length sc = 1) item.2) idx.

(** [sub] occurs in [s] at position [p]. *)
Definition occurs_at (sub s : pystr) (p : nat) : Prop :=
  ∃ l1 l2, s = l1 ++ sub ++ l2 ∧ length l1 = p.

(** Unfold the binds of [result] whose left operand is known. *)
Ltac run := cbn [mbind result_bind of_option]; unfold mbind, result_bind; cbn beta iota.

(** * Proofs *)

(** ** Dictionaries *)

Section DictFacts.
Context {K V : Type} `{EqDecision K}.
Implicit Types (d : list (K * V)) (k : K) (v : V).

Lemma dict_get_None d k : dict_get d k = None ↔ k ∉ keys d.
Proof.
  induction d as [|[k' v'] d IH]; cbn.
  - split; [intros _; apply not_elem_of_nil|done].
  - rewrite not_elem_of_cons. case_decide as Hk.
    + split; [done|]. intros [Hne _]. congruence.
    + rewrite IH. split; [|by intros [_ ?]]. intros Hd. split; [congruence|done].
Qed.

Lemma dict_get_app_absent d k v d' :
  k ∉ keys d → dict_get (d ++ (k, v) :: d') k = Some v.
Proof.
  induction d as [|[k' v'] d IH]; cbn; intros Hk.
  - by rewrite decide_True.
  - apply not_elem_of_cons in Hk as [Hne Hk].
    rewrite decide_False by done. auto.
Qed.

Lemma dict_set_absent d k v : k ∉ keys d → dict_set d k v = d ++ [(k, v)].
Proof.
  induction d as [|[k' v'] d IH]; cbn; intros Hk; [done|].
  apply not_elem_of_cons in Hk as [Hne Hk].
  rewrite decide_False by done. by rewrite IH.
Qed.

Lemma dict_set_app_absent d k v0 v d' :
  k ∉ keys d → dict_set (d ++ (k, v0) :: d') k v = d ++ (k, v) :: d'.
Proof.
  induction d as [|[k' v'] d IH]; cbn; intros Hk.
  - by rewrite decide_True.
  - apply not_elem_of_cons in Hk as [Hne Hk].
    rewrite decide_False by done. by rewrite IH.
Qed.

Lemma dict_get_Some d k v :
  dict_get d k = Some v → ∃ d1 d2, d = d1 ++ (k, v) :: d2 ∧ k ∉ keys d1.
Proof.
  induction d as [|[k' v'] d IH]; cbn; [done|]. case_decide as Hk.
  - intros [= ->]. subst k'. exists [], d. split; [done|apply not_elem_of_nil].
  - intros Hget. destruct (IH Hget) as (d1 & d2 & Hd & Hd1).
    exists ((k', v') :: d1), d2. rewrite Hd.
    split; [done|]. cbn. by apply not_elem_of_cons.
Qed.

Lemma keys_app d d' : keys (d ++ d') = keys d ++ keys d'.
Proof. apply map_app. Qed.
End DictFacts.

(** ** [str.find] and contiguous substrings *)

Lemma is_prefix_app sub l : is_prefix sub (sub ++ l) = true.
Proof.
  induction sub as [|a sub IH]; cbn; [done|]. by rewrite decide_True.
Qed.

Lemma find_from_None sub s : ∀ i,
  find_from sub s i = None ↔ ¬ substring_of sub s.
Proof.
  induction s as [|a s IH]; intros i; cbn [find_from].
  - destruct (is_prefix sub []) eqn:Hp.
    + split; [done|]. intros Hno. destruct sub; [|done].
      destruct Hno. by exists [], [].
    + split; [|done]. intros _ (l1 & l2 & Heq).
      symmetry in Heq. apply app_eq_nil in Heq as [_ Heq].
      apply app_eq_nil in Heq as [-> _]. done.
  - destruct (is_prefix sub (a :: s)) eqn:Hp.
    + split; [done|]. intros Hno. exfalso.
      assert (Hex : ∀ p t, is_prefix p t = true → ∃ l, t = p ++ l).
      { clear. induction p as [|b p IHp]; intros t Ht; [by exists t|].
        destruct t as [|c t]; [done|]. cbn in Ht.
        destruct (decide (b = c)) as [->|]; [|done].
        destruct (IHp t Ht) as [l ->]. by exists l. }
      destruct (Hex _ _ Hp) as [l Hl]. apply Hno. by exists [], l.
    + rewrite IH. split; intros Hno (l1 & l2 & Heq); apply Hno.
      * destruct l1 as [|b l1].
        -- cbn in Heq. rewrite Heq, is_prefix_app in Hp. done.
        -- injection Heq as -> ->. by exists l1, l2.
      * exists (a :: l1), l2. by rewrite Heq.
Qed.

Lemma find_none s sub : find s sub 0 = (-1)%Z ↔ ¬ substring_of sub s.
Proof.
  unfold find. cbn [Z.to_nat drop]. rewrite <- (find_from_None sub s 0).
  destruct (Z.ltb_spec (Z.of_nat (length s)) 0); [lia|].
  change (drop (Z.to_nat 0) s) with s. change (Z.to_nat 0) with 0.
  destruct (find_from sub s 0); split; (done || lia).
Qed.

(** ** Loops *)

Lemma for_each_app {A S} (body : S → A → result S) l1 l2 st :
  for_each (l1 ++ l2) body st = for_each l1 body st ≫= for_each l2 body.
Proof.
  revert st. induction l1 as [|x l1 IH]; intros st; [done|].
  cbn [app for_each]. destruct (body st x); run; auto.
Qed.

(** A loop whose body keeps an invariant and does not raise returns a
    state that has the invariant. *)
Lemma for_each_invariant {A S} (Inv : S → Prop) (body : S → A → result S) :
  (∀ st x, Inv st → ∃ st', body st x = Ret st' ∧ Inv st') →
  ∀ l st, Inv st → ∃ st', for_each l body st = Ret st' ∧ Inv st'.
Proof.
  intros Hbody. induction l as [|x l IH]; intros st Hst; [by exists st|].
  destruct (Hbody st x Hst) as (st1 & Hrun & Hst1).
  cbn [for_each]. rewrite Hrun. run. auto.
Qed.

Lemma for_each_mono {A S} (body body' : S → A → result S) :
  (∀ st x, body st x ≠ OutOfFuel → body' st x = body st x) →
  ∀ l st, for_each l body st ≠ OutOfFuel →
          for_each l body' st = for_each l body st.
Proof.
  intros Hbody. induction l as [|x l IH]; intros st Hrun; [done|].
  cbn [for_each] in *. rewrite Hbody.
  - destruct (body st x); [|done..]. revert Hrun. run. apply IH.
  - intros Hout. by rewrite Hout in Hrun.
Qed.

(** ** The optimizer *)

Lemma shaped_append idx long x :
  shaped idx → long ∉ keys idx → length x < length long →
  shaped (idx ++ [(long, [x])]).
Proof.
  intros [Hnd Hok] Hlong Hx. split.
  - rewrite keys_app. apply NoDup_app. split; [done|]. split.
    + intros k Hk [->|[]%elem_of_nil]%elem_of_cons. done.
    + apply NoDup_singleton.
  - apply Forall_app. split; [done|]. repeat constructor. done.
Qed.

Lemma shaped_replace d1 d2 long kept kept' :
  shaped (d1 ++ (long, kept) :: d2) → entry_ok (long, kept') →
  shaped (d1 ++ (long, kept') :: d2).
Proof.
  intros [Hnd Hok] Hnew. split.
  - by rewrite keys_app in *.
  - apply Forall_app in Hok as [H1 H2]. apply Forall_cons in H2 as [_ H2].
    apply Forall_app. split; [done|]. by constructor.
Qed.

Lemma keep_shortest_shaped long optimized shortcut :
  shaped optimized →
  ∃ optimized', keep_shortest long optimized shortcut = Ret optimized'
                ∧ shaped optimized'.
Proof.
  intros Hsh. unfold keep_shortest.
  destruct (length shortcut <? length long) eqn:Hlt; [|by eexists].
  apply Nat.ltb_lt in Hlt.
  destruct (dict_get optimized long) as [kept|] eqn:Hget.
  - destruct (dict_get_Some _ _ _ Hget) as (d1 & d2 & -> & Hd1).
    assert (Hok : entry_ok (long, kept)).
    { destruct Hsh as [_ Hok]. apply Forall_app in Hok as [_ Hok].
      by apply Forall_cons in Hok as [Hok _]. }
    destruct kept as [|x xs]; [done|]. destruct Hok as [Hx Hxs]. cbn in Hx, Hxs.
    cbn [lookup list_lookup]. run.
    destruct (length shortcut <? length x) eqn:Hlt2.
    + rewrite dict_set_app_absent by done. eexists. split; [done|].
      eapply shaped_replace; [exact Hsh|]. split; [done|constructor].
    + destruct (length shortcut =? length x) eqn:Heq; [|by eexists].
      apply Nat.eqb_eq in Heq.
      rewrite dict_set_app_absent by done. eexists. split; [done|].
      eapply shaped_replace; [exact Hsh|]. split; [done|]. cbn.
      apply Forall_app. split; [done|]. by repeat constructor.
  - apply dict_get_None in Hget. rewrite dict_set_absent by done.
    eexists. split; [done|]. by apply shaped_append.
Qed.

(** [optimize] raises nothing, and its result has the shape of an
    optimized index. *)
Lemma optimize_shaped lookup : ∃ idx, optimize lookup = Ret idx ∧ shaped idx.
Proof.
  unfold optimize. apply for_each_invariant.
  - intros st [long shortcuts] Hst. apply for_each_invariant; [|done].
    intros st' x. apply keep_shortest_shaped.
  - split; constructor.
Qed.

Lemma is_optimized_shaped idx : is_optimized idx → shaped idx.
Proof.
  intros [lookup Hrun].
  destruct (optimize_shaped lookup) as (idx' & Hrun' & Hsh). congruence.
Qed.

Lemma keep_shortest_first long acc x :
  long ∉ keys acc → length x < length long →
  keep_shortest long acc x = Ret (acc ++ [(long, [x])]).
Proof.
  intros Hlong Hx. unfold keep_shortest.
  rewrite (proj2 (Nat.ltb_lt _ _) Hx).
  by rewrite (proj2 (dict_get_None _ _) Hlong), dict_set_absent.
Qed.

Lemma keep_shortest_tie long acc x kept y :
  long ∉ keys acc → length x < length long → length y = length x →
  keep_shortest long (acc ++ [(long, x :: kept)]) y
  = Ret (acc ++ [(long, x :: kept ++ [y])]).
Proof.
  intros Hlong Hx Hy. unfold keep_shortest.
  rewrite Hy, (proj2 (Nat.ltb_lt _ _) Hx).
  rewrite dict_get_app_absent by done. cbn [lookup list_lookup]. run.
  by rewrite Nat.ltb_irrefl, Nat.eqb_refl, dict_set_app_absent.
Qed.

(** Shortcuts as long as the first kept one are appended in order. *)
Lemma keep_ties long x acc : ∀ xs kept,
  long ∉ keys acc → length x < length long →
  Forall (λ y, length y = length x) xs →
  for_each xs (keep_shortest long) (acc ++ [(long, x :: kept)])
  = Ret (acc ++ [(long, x :: kept ++ xs)]).
Proof.
  induction xs as [|y xs IH]; intros kept Hlong Hx Hxs.
  - by rewrite app_nil_r.
  - apply Forall_cons in Hxs as [Hy Hxs].
    cbn [for_each]. rewrite keep_shortest_tie by done. run.
    rewrite IH by done. by rewrite <- app_assoc.
Qed.

(** An index of that shape is a fixed point of [optimize]. *)
Lemma optimize_fixpoint_from rest : ∀ acc,
  NoDup (keys (acc ++ rest)) → Forall entry_ok rest →
  for_each rest
    (λ optimized '(long, shortcuts),
       for_each shortcuts (keep_shortest long) optimized)
    acc
  = Ret (acc ++ rest).
Proof.
  induction rest as [|[long kept] rest IH]; intros acc Hnd Hok.
  - by rewrite app_nil_r.
  - apply Forall_cons in Hok as [Hentry Hok].
    destruct kept as [|x xs]; [done|]. destruct Hentry as [Hx Hxs].
    cbn in Hx, Hxs.
    assert (Hlong : long ∉ keys acc).
    { rewrite keys_app in Hnd. apply NoDup_app in Hnd as (_ & Hdisj & _).
      intros Hin. apply (Hdisj _ Hin). cbn. apply elem_of_cons. by left. }
    cbn [for_each]. rewrite keep_shortest_first by done. run.
    rewrite (keep_ties long x acc xs []) by done. run.
    rewrite IH; [|by rewrite <- app_assoc|done].
    by rewrite <- app_assoc.
Qed.

Lemma optimize_fixpoint idx : shaped idx → optimize idx = Ret idx.
Proof. intros [Hnd Hok]. by apply (optimize_fixpoint_from idx []). Qed.

(** ** The optimizer against its contract *)

Lemma foldr_min_le d A :
  foldr Nat.min d A ≤ d ∧ ∀ a, a ∈ A → foldr Nat.min d A ≤ a.
Proof.
  induction A as [|b A [IHd IHA]]; cbn.
  - split; [lia|]. by intros a ?%elem_of_nil.
  - split; [lia|]. intros a [->|Ha]%elem_of_cons; [lia|].
    specialize (IHA a Ha). lia.
Qed.

Lemma foldr_min_attained d A : foldr Nat.min d A ∈ d :: A.
Proof.
  induction A as [|b A IH]; cbn; [apply elem_of_cons; by left|].
  destruct (Nat.min_dec b (foldr Nat.min d A)) as [->| ->].
  - apply elem_of_cons. right. apply elem_of_cons. by left.
  - apply elem_of_cons in IH as [->|IH]; apply elem_of_cons; [by left|].
    right. apply elem_of_cons. by right.
Qed.

Lemma foldr_min_snoc d A b :
  foldr Nat.min d (A ++ [b]) = Nat.min (foldr Nat.min d A) b.
Proof.
  induction A as [|a A IH]; cbn; [lia|]. rewrite IH. lia.
Qed.

Lemma min_length_snoc x l y :
  min_length ((x :: l) ++ [y]) = Nat.min (min_length (x :: l)) (length y).
Proof.
  unfold min_length. cbn [app head default from_option Datatypes.id].
  rewrite fmap_cons, fmap_app. cbn [foldr fmap list_fmap].
  rewrite foldr_min_snoc. lia.
Qed.

Lemma min_length_le l z : z ∈ l → min_length l ≤ length z.
Proof.
  intros Hz. unfold min_length.
  apply (proj2 (foldr_min_le _ _)). by apply list_elem_of_fmap_2.
Qed.

Lemma shortest_head x l :
  ∃ x0 xs0, shortest (x :: l) = x0 :: xs0
            ∧ length x0 = min_length (x :: l).
Proof.
  assert (Hex : ∃ z, z ∈ shortest (x :: l)).
  { pose proof (foldr_min_attained (length x) (length <$> x :: l)) as Hm.
    assert (Hin : min_length (x :: l) ∈ length <$> x :: l).
    { unfold min_length. cbn [head default from_option Datatypes.id].
      apply elem_of_cons in Hm as [->|Hm]; [|done].
      rewrite fmap_cons. apply elem_of_cons. by left. }
    apply list_elem_of_fmap in Hin as (z & Hz & Hzl).
    exists z. apply list_elem_of_filter. by split. }
  destruct Hex as [z Hz].
  destruct (shortest (x :: l)) as [|x0 xs0] eqn:Hs;
    [by apply elem_of_nil in Hz|].
  exists x0, xs0. split; [done|].
  assert (Hx0 : x0 ∈ shortest (x :: l))
    by (rewrite Hs; apply elem_of_cons; by left).
  by apply list_elem_of_filter in Hx0 as [Hx0 _].
Qed.

Lemma filter_none {A} (P : A → Prop) `{∀ x, Decision (P x)} (l : list A) :
  (∀ x, x ∈ l → ¬ P x) → filter P l = [].
Proof.
  induction l as [|x l IH]; intros Hl; [done|].
  rewrite filter_cons_False by (apply Hl, elem_of_cons; by left).
  apply IH. intros z Hz. apply Hl, elem_of_cons. by right.
Qed.

Lemma shortest_snoc x l y :
  shortest ((x :: l) ++ [y]) =
  if decide (length y < min_length (x :: l)) then [y]
  else if decide (length y = min_length (x :: l))
       then shortest (x :: l) ++ [y]
       else shortest (x :: l).
Proof.
  unfold shortest at 1. rewrite min_length_snoc, filter_app.
  set (m := min_length (x :: l)).
  destruct (decide (length y < m)) as [Hlt|Hge].
  - replace (m `min` length y) with (length y) by lia.
    rewrite (filter_cons_True _ y) by done. rewrite filter_nil.
    rewrite filter_none; [done|].
    intros z Hz. apply min_length_le in Hz. fold m in Hz. lia.
  - replace (m `min` length y) with m by lia. fold (shortest (x :: l)).
    destruct (decide (length y = m)) as [Heq|Hne].
    + by rewrite (filter_cons_True _ y) by done.
    + rewrite (filter_cons_False _ y) by done. by rewrite app_nil_r.
Qed.

Lemma keep_shortest_kept long acc x0 xs0 y :
  long ∉ keys acc →
  keep_shortest long (acc ++ [(long, x0 :: xs0)]) y =
  Ret (acc ++ [(long,
                if decide (length y < length long) then
                  if decide (length y < length x0) then [y]
                  else if decide (length y = length x0)
                       then (x0 :: xs0) ++ [y]
                       else x0 :: xs0
                else x0 :: xs0)]).
Proof.
  intros Hlong. unfold keep_shortest.
  destruct (decide (length y < length long)) as [Hlt|Hge].
  - rewrite (proj2 (Nat.ltb_lt _ _) Hlt).
    rewrite dict_get_app_absent by done. cbn [lookup list_lookup]. run.
    destruct (decide (length y < length x0)) as [Hlt0|Hge0].
    + rewrite (proj2 (Nat.ltb_lt _ _) Hlt0). by rewrite dict_set_app_absent.
    + rewrite (proj2 (Nat.ltb_ge _ _)) by lia.
      destruct (decide (length y = length x0)) as [Heq|Hne].
      * rewrite (proj2 (Nat.eqb_eq _ _) Heq). by rewrite dict_set_app_absent.
      * by rewrite (proj2 (Nat.eqb_neq _ _) Hne).
  - by rewrite (proj2 (Nat.ltb_ge _ _)) by lia.
Qed.

Lemma shorter_than_snoc long p y :
  shorter_than long (p ++ [y]) =
  shorter_than long p ++ (if decide (length y < length long) then [y] else []).
Proof.
  unfold shorter_than. by rewrite filter_app.
Qed.

(** The loop over the shortcuts of one key computes the contract's entry. *)
Lemma keep_shortest_contract long acc :
  long ∉ keys acc →
  ∀ p, for_each p (keep_shortest long) acc
       = Ret (acc ++ contract_entry long p).
Proof.
  intros Hlong. induction p as [|y p IH] using rev_ind.
  - cbn. by rewrite app_nil_r.
  - rewrite for_each_app, IH. run. cbn [for_each].
    unfold contract_entry. rewrite shorter_than_snoc.
    destruct (shorter_than long p) as [|x l] eqn:Hc.
    + cbn [shortest filter list_filter app]. rewrite app_nil_r.
      destruct (decide (length y < length long)) as [Hlt|Hge].
      * rewrite keep_shortest_first by done. run.
        unfold shortest, min_length. cbn [head default from_option
          Datatypes.id fmap list_fmap foldr].
        rewrite Nat.min_id. by rewrite filter_cons_True, filter_nil.
      * unfold keep_shortest. rewrite (proj2 (Nat.ltb_ge _ _)) by lia.
        run. by rewrite app_nil_r.
    + destruct (shortest_head x l) as (x0 & xs0 & Hs & Hm).
      rewrite Hs, keep_shortest_kept by done. run.
      destruct (decide (length y < length long)) as [Hlt|Hge].
      * rewrite shortest_snoc, Hs, <- Hm.
        repeat destruct (decide _); done.
      * by rewrite app_nil_r, Hs.
Qed.

Lemma keys_contract_entry long p k :
  k ∈ keys (contract_entry long p) → k = long.
Proof.
  unfold contract_entry. destruct (shortest _); cbn.
  - by intros ?%elem_of_nil.
  - by intros [->|?%elem_of_nil]%elem_of_cons.
Qed.

Lemma optimize_contract_from rest : ∀ acc,
  NoDup (keys rest) → (∀ k, k ∈ keys rest → k ∉ keys acc) →
  for_each rest
    (λ optimized '(long, shortcuts),
       for_each shortcuts (keep_shortest long) optimized)
    acc
  = Ret (acc ++ optimize_contract rest).
Proof.
  induction rest as [|[long shortcuts] rest IH]; intros acc Hnd Hdisj.
  - cbn. by rewrite app_nil_r.
  - cbn in Hnd. apply NoDup_cons in Hnd as [Hlong Hnd].
    cbn [for_each]. rewrite keep_shortest_contract.
    2: { apply Hdisj. cbn. apply elem_of_cons. by left. }
    run. rewrite IH; [|done|].
    + unfold optimize_contract. cbn [mbind list_bind].
      by rewrite <- app_assoc.
    + intros k Hk. rewrite keys_app. intros [Hin|Hin]%elem_of_app.
      * apply (Hdisj k); [|done]. cbn. apply elem_of_cons. by right.
      * apply keys_contract_entry in Hin. by subst k.
Qed.

Lemma optimize_meets_contract lookup :
  NoDup (keys lookup) → optimize lookup = Ret (optimize_contract lookup).
Proof.
  intros Hnd. unfold optimize.
  rewrite (optimize_contract_from lookup []); [done..|].
  intros k _. apply not_elem_of_nil.
Qed.

(** C9.  [optimize] returns an index on which it is the identity, so
    running it twice gives what running it once gives; and on a
    dictionary (no key twice) the index it returns is the one of the
    contract: for each key the shortcuts of minimal length among those
    strictly shorter than the key, in first-seen order, and no entry for
    a key without a shorter shortcut. *)
Theorem optimize_idempotent lookup :
  ∃ idx,
    optimize lookup = Ret idx
    ∧ optimize idx = Ret idx
    ∧ (NoDup (keys lookup) → idx = optimize_contract lookup).
Proof.
  destruct (optimize_shaped lookup) as (idx & Hrun & Hsh).
  exists idx. split; [done|]. split; [by apply optimize_fixpoint|].
  intros Hnd. rewrite (optimize_meets_contract lookup Hnd) in Hrun.
  congruence.
Qed.

Lemma optimize_idempotent_witness :
  optimize lookup_ties = Ret [(lit "abc", [lit "z"; lit "w"]); (lit "de", [lit "f"])]
  ∧ optimize [(lit "abc", [lit "z"; lit "w"]); (lit "de", [lit "f"])]
    = Ret [(lit "abc", [lit "z"; lit "w"]); (lit "de", [lit "f"])].
Proof.
  destruct (optimize_idempotent lookup_ties) as (idx & Hrun & Hfix & Hspec).
  assert (Hnd : NoDup (keys lookup_ties)).
  { apply (bool_decide_unpack _). vm_compute. exact I. }
  rewrite (Hspec Hnd) in Hrun, Hfix. split; [exact Hrun|exact Hfix].
Defined.

(** ** The pass-through chain *)

Lemma length_pre s : length (pre s) = S (length s).
Proof. unfold pre. cbn. by rewrite length_imap. Qed.

Lemma pre_snoc s c :
  pre (s ++ [c]) = pre s ++ [mkNode (Some [c]) (S (length s))].
Proof.
  unfold pre. rewrite imap_app. cbn. by rewrite Nat.add_0_r.
Qed.

Lemma pre_lookup_id s i v : pre s !! i = Some v → id v = i.
Proof.
  unfold pre. destruct i as [|i]; cbn.
  - by intros [= <-].
  - intros H. by apply list_lookup_imap_Some in H as (y & _ & ->).
Qed.

Lemma length_chain s : length (chain s) = S (S (length s)).
Proof. unfold chain. rewrite length_app, length_pre. cbn. lia. Qed.

Lemma chain_lookup_id s i v : chain s !! i = Some v → id v = i.
Proof.
  unfold chain. intros H. apply lookup_app_Some in H as [H|[Hle H]].
  - by eapply pre_lookup_id.
  - rewrite length_pre in *. apply list_lookup_singleton_Some in H as [Hi <-].
    cbn. lia.
Qed.

(** The state of the loop of lines 151-155 after the characters of [s]. *)
Lemma fold_chain s :
  ∃ g last,
    fold_left chain_step s (mkDAG [mkNode None 0] ∅ ∅, [], mkNode None 0)
      = (g, tail (pre s), last)
    ∧ nodes g = pre s
    ∧ pre s !! length s = Some last
    ∧ ∀ j, edges_from g !! j =
           if decide (j < length s) then (λ x, [x]) <$> pre s !! S j else None.
Proof.
  induction s as [|c s IH] using rev_ind.
  - eexists _, _. cbn. split; [reflexivity|]. do 2 (split; [done|]).
    intros j. done.
  - destruct IH as (g & last & Hfold & Hnodes & Hlast & Hedges).
    rewrite fold_left_app, Hfold. cbn [fold_left chain_step add_node].
    rewrite Hnodes, length_pre, pre_snoc.
    eexists _, _. split.
    { unfold pre. cbn [tail app]. reflexivity. }
    cbn [nodes add_edge edges_from]. split; [done|]. split.
    { rewrite length_app. cbn [length]. rewrite lookup_app_r; rewrite length_pre; [|lia].
      by replace (length s + 1 - S (length s)) with 0 by lia. }
    intros j. unfold append_at. cbn [id].
    assert (Hidl : id last = length s) by (by eapply pre_lookup_id).
    rewrite Hidl, length_app. cbn [length].
    rewrite lookup_insert. case_decide as Hj.
    + subst j. rewrite Hedges. case_decide; [lia|].
      case_decide; [|lia].
      rewrite lookup_app_r; rewrite length_pre; [|lia].
      by rewrite Nat.sub_diag.
    + rewrite Hedges. case_decide.
      * case_decide; [|lia]. rewrite lookup_app_l; [done|].
        rewrite length_pre. lia.
      * case_decide; [lia|done].
Qed.

Lemma build_chain_spec s :
  ∃ g,
    build_chain s
      = (g, mkNode None 0, tail (pre s), mkNode None (S (length s)))
    ∧ nodes g = chain s
    ∧ ∀ j, edges_from g !! j =
           if decide (j ≤ length s) then (λ x, [x]) <$> chain s !! S j
           else None.
Proof.
  destruct (fold_chain s) as (g & last & Hfold & Hnodes & Hlast & Hedges).
  change (build_chain s) with
    (let '(g, char_nodes, last) :=
       fold_left chain_step s
                 (mkDAG [mkNode None 0] ∅ ∅, [], mkNode None 0) in
     let '(g, end_) := add_node g None in
     (add_edge g last end_, mkNode None 0, char_nodes, end_)).
  rewrite Hfold. cbn [add_node]. rewrite Hnodes, length_pre.
  eexists. split; [reflexivity|]. cbn [add_edge nodes edges_from].
  split; [done|]. intros j. unfold append_at, chain. cbn [id].
  assert (Hidl : id last = length s) by (by eapply pre_lookup_id).
  rewrite Hidl, lookup_insert, Hedges. case_decide as Hj.
  - subst j. destruct (decide (length s < length s)); [lia|].
    destruct (decide (length s ≤ length s)); [|lia].
    rewrite lookup_app_r; rewrite length_pre; [|lia].
    by rewrite Nat.sub_diag.
  - rewrite Hedges.
    destruct (decide (j < length s)), (decide (j ≤ length s)); try lia.
    + rewrite lookup_app_l; [done|]. rewrite length_pre. lia.
    + done.
Qed.

Lemma nodes_link g n start_node end_node :
  nodes (link g n start_node end_node) = nodes g.
Proof.
  unfold link. generalize (predecessors g start_node). intros froms.
  assert (Hinner : ∀ tos g0 from_node,
    nodes (fold_left
             (λ g1 to_node, add_edge (add_edge g1 from_node n) n to_node)
             tos g0) = nodes g0).
  { induction tos as [|to_node tos IH]; intros g0 from_node; [done|].
    cbn [fold_left]. by rewrite IH. }
  revert g. induction froms as [|from_node froms IH]; intros g; [done|].
  cbn [fold_left]. by rewrite IH, Hinner.
Qed.

Lemma nodes_occurrences string long char_nodes n fuel : ∀ g start_pos g',
  occurrences fuel string long char_nodes n g start_pos = Ret g' →
  nodes g' = nodes g.
Proof.
  induction fuel as [|fuel IH]; intros g start_pos g'; [done|].
  cbn [occurrences].
  destruct (find string long start_pos =? -1)%Z; [by intros [= <-]|].
  destruct (py_index char_nodes (find string long start_pos)); [|done..].
  destruct (py_index char_nodes _); [|done..]. run.
  intros Hrun. by rewrite (IH _ _ _ Hrun), nodes_link.
Qed.

(** The graph has one shortcut node for each key of the index, however
    often the key occurs in the target. *)
Lemma one_node_per_key fuel idx string g start end_ :
  build_graph fuel idx string = Ret (g, start, end_) →
  length (nodes g) = length string + 2 + length idx.
Proof.
  unfold build_graph.
  destruct (build_chain_spec string) as (g0 & -> & Hnodes & _).
  assert (Hloop : ∀ items g1 g2,
    for_each items (add_shortcut fuel string (tail (pre string))) g1 = Ret g2 →
    length (nodes g2) = length (nodes g1) + length items).
  { induction items as [|[long shortcuts] items IH]; intros g1 g2.
    - intros [= <-]. cbn. lia.
    - cbn [for_each add_shortcut]. destruct (shortcuts !! 0); run; [|done].
      cbn [add_node].
      destruct (occurrences _ _ _ _ _ _ _) as [g3| |] eqn:Hocc; [|done..].
      run. intros Hrest. rewrite (IH _ _ Hrest).
      rewrite (nodes_occurrences _ _ _ _ _ _ _ _ Hocc). cbn [nodes length].
      rewrite length_app. cbn. lia. }
  destruct (for_each idx _ g0) as [g1| |] eqn:Hrun; run; [|done..].
  intros [= <- _ _]. rewrite (Hloop _ _ _ Hrun), Hnodes, length_chain. lia.
Qed.

(** ** The search loop *)

Lemma improve_dist current distance pred dist succ :
  let dist' := (improve current distance pred dist succ).2 in
  (∀ k, is_Some (dist !! k) → is_Some (dist' !! k))
  ∧ is_Some (dist' !! id succ).
Proof.
  unfold improve. destruct (dist !! id succ) as [d'|] eqn:Hw.
  - destruct (distance <? d'); cbn.
    + split; [intros k Hk|]; rewrite lookup_insert; case_decide; eauto; done.
    + rewrite Hw. eauto.
  - cbn. split; [intros k Hk|]; rewrite lookup_insert; case_decide; eauto; done.
Qed.

Lemma relax_all current succs : ∀ pred dist q,
  is_Some (dist !! id current) →
  ∃ pred' dist',
    for_each succs (relax current) (pred, dist, q)
      = Ret (pred', dist', q ++ succs)
    ∧ (∀ k, is_Some (dist !! k) → is_Some (dist' !! k))
    ∧ Forall (λ v, is_Some (dist' !! id v)) succs.
Proof.
  induction succs as [|w succs IH]; intros pred dist q [d Hd].
  - exists pred, dist. rewrite app_nil_r. auto.
  - cbn [for_each]. unfold relax at 2. rewrite Hd. cbn.
    pose proof (improve_dist current (d + 1) pred dist w) as Himp.
    destruct (improve current (d + 1) pred dist w) as [pred1 dist1].
    cbn in Himp. destruct Himp as [Hmono Hw].
    destruct (IH pred1 dist1 (q ++ [w]) (Hmono _ (ex_intro _ d Hd)))
      as (pred' & dist' & Hrun & Hmono' & Hall).
    exists pred', dist'. run. rewrite Hrun, <- app_assoc. cbn.
    split; [done|]. split; [eauto|]. constructor; eauto.
Qed.

(** Once the queue holds a node of a set closed under successors, the
    loop is still running whatever the fuel. *)
Lemma bfs_diverges g U :
  closed_under_succ g U →
  ∀ fuel pred dist q,
    Forall (λ v, is_Some (dist !! id v)) q →
    Exists (λ v, id v ∈ U) q →
    bfs fuel g pred dist q = OutOfFuel.
Proof.
  intros Hclosed. induction fuel as [|fuel IH]; intros pred dist q Hq Hin.
  - destruct q; [by apply Exists_nil in Hin | done].
  - destruct q as [|current q]; [by apply Exists_nil in Hin|].
    apply Forall_cons in Hq as [Hcur Hq]. cbn [bfs].
    destruct (relax_all current (successors g current) pred dist q Hcur)
      as (pred' & dist' & -> & Hmono & Hsucc). cbn.
    apply IH.
    + apply Forall_app. split; [|done].
      eapply Forall_impl; [exact Hq|]. cbn. eauto.
    + apply Exists_app. apply Exists_cons in Hin as [Hin|Hin]; [right|by left].
      unfold closed_under_succ in Hclosed.
      rewrite Forall_forall in Hclosed. by apply Hclosed.
Qed.

Lemma chain_dist_lookup i j :
  chain_dist i !! j = if decide (j ≤ i) then Some j else None.
Proof.
  induction i as [|i IH]; cbn.
  - destruct (decide (j = 0)) as [->|].
    + by rewrite lookup_singleton_eq.
    + rewrite lookup_singleton_ne by done. case_decide; [lia|done].
  - rewrite lookup_insert, IH. repeat case_decide; try lia; by subst.
Qed.

Lemma chain_pred_lookup L i j :
  chain_pred L i !! j =
  match j with
  | O => Some None
  | S j' => if decide (j ≤ i) then Some (L !! j') else None
  end.
Proof.
  induction i as [|i IH]; cbn.
  - destruct j as [|j].
    + by rewrite lookup_singleton_eq.
    + rewrite lookup_singleton_ne by done. case_decide; [lia|done].
  - rewrite lookup_insert, IH. destruct j as [|j].
    + case_decide; [lia|done].
    + repeat case_decide; try lia; congruence.
Qed.

Section ChainSearch.
Variable s : pystr.
Variable g : DAG.
Hypothesis g_edges : ∀ j, edges_from g !! j =
  if decide (j ≤ length s) then (λ x, [x]) <$> chain s !! S j else None.

Let L := chain s.
Let n := length s.

(** The search walks the chain node by node and stops behind [end]. *)
Lemma bfs_chain k : ∀ i v fuel,
  i + k = S n → L !! i = Some v → k < fuel →
  bfs fuel g (chain_pred L i) (chain_dist i) [v]
  = Ret (chain_pred L (S n), chain_dist (S n)).
Proof.
  induction k as [|k IH]; intros i v fuel Hik Hv Hfuel;
    (destruct fuel as [|fuel]; [lia|]);
    pose proof (chain_lookup_id _ _ _ Hv) as Hid;
    cbn [bfs]; unfold successors; rewrite Hid, g_edges.
  - destruct (decide (i ≤ length s)); [subst n; lia|].
    cbn [from_option for_each]. run. cbn [bfs].
    replace i with (S n) by lia. by destruct fuel.
  - destruct (decide (i ≤ length s)); [|subst n; lia].
    destruct (lookup_lt_is_Some_2 L (S i)) as [w Hw].
    { subst L. rewrite length_chain. subst n. lia. }
    fold L. rewrite Hw. cbn [fmap option_fmap option_map from_option Datatypes.id for_each].
    pose proof (chain_lookup_id _ _ _ Hw) as Hidw.
    unfold relax, improve. rewrite Hid, Hidw, !chain_dist_lookup.
    destruct (decide (i ≤ i)); [|lia].
    destruct (decide (S i ≤ i)); [lia|]. run.
    replace (i + 1) with (S i) by lia.
    rewrite <- Hv. apply (IH (S i) w fuel); [lia|done|lia].
Qed.

(** Walking the predecessors back from the [i]-th node of the chain. *)
Lemma reconstruct_chain i : ∀ v path fuel,
  L !! i = Some v → i ≤ S n → i < fuel →
  reconstruct fuel (chain_pred L (S n)) (Some v) path
  = Ret (take (S i) L ++ path).
Proof.
  induction i as [|i IH]; intros v path fuel Hv Hi Hfuel;
    (destruct fuel as [|fuel]; [lia|]);
    pose proof (chain_lookup_id _ _ _ Hv) as Hid;
    cbn [reconstruct]; rewrite Hid, chain_pred_lookup.
  - run. destruct fuel; cbn [reconstruct];
      (destruct L as [|v0 L0] eqn:HL; [done|]); by simplify_eq/=.
  - destruct (decide (S i ≤ S n)); [|lia]. run.
    destruct (lookup_lt_is_Some_2 L i) as [u Hu].
    { apply lookup_lt_Some in Hv. lia. }
    rewrite Hu. rewrite (IH u (v :: path) fuel Hu); [|lia..].
    by rewrite (take_S_r L (S i) v Hv), <- app_assoc.
Qed.
End ChainSearch.

(** The characters of the chain, joined, spell the target. *)
Lemma join_values_chars (s : pystr) : ∀ f : nat → nat,
  join_values (imap (λ i c, mkNode (Some [c]) (f i)) s) = Ret s.
Proof.
  induction s as [|c s IH]; intros f; [done|].
  rewrite imap_cons. cbn [join_values value]. run.
  change (join_values (imap ((λ i c, mkNode (Some [c]) (f i)) ∘ S) s))
    with (join_values (imap (λ i c, mkNode (Some [c]) ((f ∘ S) i)) s)).
  by rewrite IH.
Qed.

Lemma inner_chain s :
  inner (chain s) = imap (λ i c, mkNode (Some [c]) (S i)) s.
Proof.
  unfold inner, chain, pre. cbn [app tail].
  apply removelast_last.
Qed.

(** ** Running time *)

(** A run that ended keeps its outcome when it is given more fuel. *)
Lemma occurrences_mono string long char_nodes n fuel : ∀ fuel' g start_pos,
  fuel ≤ fuel' →
  occurrences fuel string long char_nodes n g start_pos ≠ OutOfFuel →
  occurrences fuel' string long char_nodes n g start_pos
  = occurrences fuel string long char_nodes n g start_pos.
Proof.
  induction fuel as [|fuel IH]; intros fuel' g start_pos Hle Hrun; [done|].
  destruct fuel' as [|fuel']; [lia|]. cbn [occurrences] in *.
  destruct (find string long start_pos =? -1)%Z; [done|].
  destruct (py_index char_nodes (find string long start_pos)); [|done..].
  destruct (py_index char_nodes _); [|done..]. revert Hrun. run.
  intros Hrun. apply IH; [lia|done].
Qed.

Lemma build_graph_mono fuel fuel' idx string :
  fuel ≤ fuel' → build_graph fuel idx string ≠ OutOfFuel →
  build_graph fuel' idx string = build_graph fuel idx string.
Proof.
  intros Hle. unfold build_graph.
  destruct (build_chain string) as [[[g start] char_nodes] end_].
  intros Hrun.
  rewrite (for_each_mono (add_shortcut fuel string char_nodes)
                         (add_shortcut fuel' string char_nodes)); [done| |].
  - intros st [long shortcuts]. unfold add_shortcut.
    destruct (shortcuts !! 0); run; [|done].
    apply occurrences_mono. done.
  - intros Hout. by rewrite Hout in Hrun.
Qed.

Lemma bfs_mono g fuel : ∀ fuel' pred dist q,
  fuel ≤ fuel' → bfs fuel g pred dist q ≠ OutOfFuel →
  bfs fuel' g pred dist q = bfs fuel g pred dist q.
Proof.
  induction fuel as [|fuel IH]; intros fuel' pred dist q Hle Hrun.
  - destruct q; [by destruct fuel'|done].
  - destruct fuel' as [|fuel']; [lia|]. destruct q as [|current q]; [done|].
    cbn [bfs] in *.
    destruct (for_each _ _ _) as [[[pred1 dist1] q1]| |]; [|done..].
    revert Hrun. run. intros Hrun. apply IH; [lia|done].
Qed.

Lemma reconstruct_mono pred fuel : ∀ fuel' current path,
  fuel ≤ fuel' → reconstruct fuel pred current path ≠ OutOfFuel →
  reconstruct fuel' pred current path = reconstruct fuel pred current path.
Proof.
  induction fuel as [|fuel IH]; intros fuel' current path Hle Hrun.
  - destruct current; [done|by destruct fuel'].
  - destruct fuel' as [|fuel']; [lia|]. destruct current as [c|]; [|done].
    cbn [reconstruct] in *. destruct (pred !! id c); run; [|done].
    revert Hrun. run. intros Hrun. apply IH; [lia|done].
Qed.

Lemma shorten_optimal_mono fuel fuel' idx string r :
  fuel ≤ fuel' → shorten_optimal fuel idx string = Ret r →
  shorten_optimal fuel' idx string = Ret r.
Proof.
  intros Hle. unfold shorten_optimal.
  destruct (build_graph fuel idx string) as [[[g start] end_]| |] eqn:Hg;
    [|done..].
  rewrite (build_graph_mono fuel fuel') by (done || by rewrite Hg).
  rewrite Hg. run.
  destruct (bfs fuel g _ _ _) as [[pred dist]| |] eqn:Hbfs; [|done..].
  rewrite (bfs_mono g fuel fuel') by (done || by rewrite Hbfs).
  rewrite Hbfs. run.
  destruct (reconstruct fuel pred _ _) as [path| |] eqn:Hpath; [|done..].
  rewrite (reconstruct_mono pred fuel fuel') by (done || by rewrite Hpath).
  by rewrite Hpath.
Qed.

(** ** Targets in which no key occurs, and the empty target *)

(** A key that does not occur adds its node and no edge. *)
Lemma for_each_no_match fuel s cn idx :
  Forall (λ item, item.2 ≠ [] ∧ find s item.1 0 = (-1)%Z) idx →
  ∀ g, ∃ g',
    for_each idx (add_shortcut (S fuel) s cn) g = Ret g'
    ∧ edges_from g' = edges_from g.
Proof.
  induction 1 as [|[long shortcuts] idx [Hne Hfind] _ IH]; intros g.
  - by exists g.
  - cbn [for_each add_shortcut]. cbn in Hne, Hfind.
    destruct shortcuts as [|shortcut shortcuts]; [done|].
    cbn [lookup list_lookup]. run. cbn [add_node occurrences].
    rewrite Hfind. cbn [Z.eqb Pos.eqb]. run.
    match goal with |- context [for_each idx _ ?g1] =>
      destruct (IH g1) as (g' & -> & Hg') end.
    by exists g'.
Qed.

(** When no key of [idx] occurs in [s], and every key has a shortcut,
    [shorten_optimal] returns [s]. *)
Lemma shorten_no_match idx s fuel :
  Forall (λ item, item.2 ≠ [] ∧ find s item.1 0 = (-1)%Z) idx →
  S (S (length s)) < fuel →
  shorten_optimal fuel idx s = Ret s.
Proof.
  intros Hidx Hfuel. destruct fuel as [|fuel]; [lia|].
  destruct (build_chain_spec s) as (g0 & Hchain & _ & Hedges).
  destruct (for_each_no_match fuel s (tail (pre s)) idx Hidx g0)
    as (g & Hg & Hsame).
  unfold shorten_optimal, build_graph. rewrite Hchain, Hg. run.
  rewrite <- Hsame in Hedges.
  change ({[0 := None]} : gmap nat (option Node))
    with (chain_pred (chain s) 0).
  change ({[0 := 0]} : gmap nat nat) with (chain_dist 0).
  rewrite (bfs_chain s g Hedges (S (length s)) 0 (mkNode None 0));
    [|lia|done|lia].
  run.
  rewrite (reconstruct_chain s (S (length s)) (mkNode None (S (length s))));
    [|..|lia].
  - run. rewrite app_nil_r, firstn_all2 by (rewrite length_chain; lia).
    rewrite inner_chain. apply (join_values_chars s S).
  - unfold chain. rewrite lookup_app_r; rewrite length_pre; [|lia].
    by rewrite Nat.sub_diag.
  - lia.
Qed.

Lemma optimized_no_match idx s :
  is_optimized idx →
  (∀ long, long ∈ keys idx → ¬ substring_of long s) →
  Forall (λ item, item.2 ≠ [] ∧ find s item.1 0 = (-1)%Z) idx.
Proof.
  intros [_ Hok]%is_optimized_shaped Hno.
  apply Forall_forall. intros [long kept] Hin. cbn. split.
  - rewrite Forall_forall in Hok. specialize (Hok _ Hin).
    by destruct kept.
  - apply find_none, Hno. by apply (list_elem_of_fmap_2 fst) in Hin.
Qed.

(** C7.  When no contiguous substring of the target equals a key of the
    optimized index, [shorten_optimal] returns the target unchanged (as
    soon as the fuel covers the chain of the target). *)
Theorem shorten_identity idx s fuel :
  is_optimized idx →
  (∀ long, long ∈ keys idx → ¬ substring_of long s) →
  length s + 2 < fuel →
  shorten_optimal fuel idx s = Ret s.
Proof.
  intros Hopt Hno Hfuel.
  apply shorten_no_match; [by apply optimized_no_match|lia].
Qed.

Lemma shorten_identity_witness :
  shorten_optimal 6 idx_ab (lit "cba") = Ret (lit "cba").
Proof.
  apply shorten_identity.
  - exists idx_ab. vm_compute. reflexivity.
  - intros long [->|Hin%elem_of_nil]%elem_of_cons; [|done].
    apply find_none. vm_compute. reflexivity.
  - cbn. lia.
Defined.

(** C8.  The empty target is valid input: with any optimized index
    [shorten_optimal] returns the empty string. *)
Theorem shorten_empty idx fuel :
  is_optimized idx → 2 < fuel → shorten_optimal fuel idx [] = Ret [].
Proof.
  intros Hopt Hfuel. apply shorten_no_match; [|cbn; lia].
  pose proof (is_optimized_shaped idx Hopt) as [_ Hok].
  eapply Forall_impl; [exact Hok|]. intros [long kept] Hentry.
  destruct kept as [|x xs]; [done|]. destruct Hentry as [Hx _].
  cbn in Hx |- *. split; [done|]. destruct long; [cbn in Hx; lia|done].
Qed.

Lemma shorten_empty_witness : shorten_optimal 3 idx_ab [] = Ret [].
Proof.
  apply shorten_empty.
  - exists idx_ab. vm_compute. reflexivity.
  - lia.
Defined.

(** ** The shortcut node shared by the occurrences of a key *)

Lemma graph_cabcabc_eq :
  build_graph 3 idx_ab cabcabc = Ret (graph_cabcabc, n_start, n_end).
Proof. vm_compute. reflexivity. Qed.

Lemma build_graph_cabcabc fuel :
  build_graph (S (S (S fuel))) idx_ab cabcabc
  = Ret (graph_cabcabc, n_start, n_end).
Proof. vm_compute. reflexivity. Qed.

Lemma closed_cabcabc : closed_under_succ graph_cabcabc [0; 1; 2; 3; 4; 9].
Proof. apply (bool_decide_unpack _). vm_compute. exact I. Qed.

(** C1 (the code departs from the claim).  For the index [{"ab": ["x"]}]
    and the target ["cabcabc"], whose two occurrences of ["ab"] do not
    overlap, the graph has ten nodes: start, seven characters, end and a
    single shortcut node for both occurrences.  That node has the two
    predecessors [c0] and [c3] and the two successors [c3] and [c6], so
    the occurrences are cross-linked. *)
Theorem shortcut_node_shared :
  build_graph 3 idx_ab cabcabc = Ret (graph_cabcabc, n_start, n_end)
  ∧ length (nodes graph_cabcabc) = 10
  ∧ drop 9 (nodes graph_cabcabc) = [n_x]
  ∧ predecessors graph_cabcabc n_x = [n_c0; n_c3]
  ∧ successors graph_cabcabc n_x = [n_c3; n_c6].
Proof.
  split; [exact graph_cabcabc_eq|].
  split; [|split; [|split]]; vm_compute; reflexivity.
Qed.

(** C4 (the code departs from the claim).  The graph built for
    [{"ab": ["x"]}] and ["cabcabc"] has the cycle [c3 -> x -> c3]. *)
Theorem graph_cabcabc_cyclic :
  build_graph 3 idx_ab cabcabc = Ret (graph_cabcabc, n_start, n_end)
  ∧ edge graph_cabcabc (id n_c3) (id n_x)
  ∧ edge graph_cabcabc (id n_x) (id n_c3)
  ∧ ¬ acyclic graph_cabcabc.
Proof.
  assert (H49 : edge graph_cabcabc 4 9)
    by (unfold edge; apply (bool_decide_unpack _); vm_compute; exact I).
  assert (H94 : edge graph_cabcabc 9 4)
    by (unfold edge; apply (bool_decide_unpack _); vm_compute; exact I).
  split; [apply graph_cabcabc_eq|]. do 2 (split; [assumption|]).
  intros Hacyclic. apply (Hacyclic 4).
  eapply tc_l; [exact H49|]. by apply tc_once.
Qed.

(** C5 (the code departs from the claim).  On the graph built for
    [{"ab": ["x"]}] and ["cabcabc"] the search loop started from [start]
    is still running after any number of iterations: it returns no path. *)
Theorem bfs_cabcabc_diverges :
  build_graph 3 idx_ab cabcabc = Ret (graph_cabcabc, n_start, n_end)
  ∧ ∀ fuel,
      bfs fuel graph_cabcabc {[id n_start := None]} {[id n_start := 0]}
          [n_start] = OutOfFuel.
Proof.
  split; [apply graph_cabcabc_eq|]. intros fuel.
  apply (bfs_diverges _ _ closed_cabcabc).
  - repeat constructor. rewrite lookup_singleton_eq. eauto.
  - apply Exists_cons_hd. cbn. set_solver.
Qed.

(** C2 (the code departs from the claim).  For the index [{"ab": ["x"]}]
    and the target ["cabcabc"], [shorten_optimal] returns nothing: with
    any fuel the run is still inside a loop, so ["cxcxc"] is not
    returned. *)
Theorem shorten_cabcabc_diverges :
  ∀ fuel, shorten_optimal fuel idx_ab cabcabc = OutOfFuel.
Proof.
  intros fuel. destruct fuel as [|[|[|fuel]]]; [vm_compute; reflexivity..|].
  unfold shorten_optimal.
  rewrite (build_graph_cabcabc fuel). run.
  rewrite (bfs_diverges _ _ closed_cabcabc); [reflexivity| |].
  - repeat constructor. rewrite lookup_singleton_eq. eauto.
  - apply Exists_cons_hd. cbn. set_solver.
Qed.

(** Shortcuts of one code point are needed for the bound on the length
    of the result.  Called with an index of longer shortcuts, which no
    mapping table gives, [shorten_optimal] can return a longer string:
    the key ["abcdab"] occurs in ["pqabcdabcdabrs"] at 2 and at 6; its
    single node is entered behind ["pqabcd"] (position 6) and left
    towards ["cdabrs"] (position 8), and the 14-character target comes
    back as 15 characters. *)
Remark shorten_periodic_expands :
  optimize idx_periodic = Ret idx_periodic
  ∧ (∀ fuel, 1000 ≤ fuel →
       shorten_optimal fuel idx_periodic target_periodic
       = Ret (lit "YYYYYXXXXXZZZZZ"))
  ∧ length target_periodic = 14
  ∧ length (lit "YYYYYXXXXXZZZZZ") = 15.
Proof.
  split; [vm_compute; reflexivity|]. split; [|done].
  intros fuel Hfuel. apply (shorten_optimal_mono 1000); [done|].
  vm_compute. reflexivity.
Qed.

(** ** The header of the table *)

(** C10.  [parse_table] drops the first eleven lines whatever they hold:
    [line_A] has the format of a mapped entry (alone, it parses to the
    fact A -> a), it is the first line of [table_A], and the facts of
    [table_A] are those of its twelfth line only. *)
Theorem header_entry_dropped :
  split table_A nl !! 0 = Some line_A
  ∧ parse_line [] line_A = Ret [(lit "A", lit "a")]
  ∧ parse_table table_A = Ret parsed_ii.
Proof. split; [|split]; vm_compute; reflexivity. Qed.

(** A table of at most eleven lines has no facts. *)
Lemma parse_table_short table :
  length (split table nl) ≤ 11 → parse_table table = Ret [].
Proof.
  intros Hlen. unfold parse_table. fold nl.
  by rewrite drop_ge.
Qed.

(** ** The round trip *)

Lemma iter_step_ii n :
  Nat.iter (S n) (normalize_step parsed_ii) small_roman_two = lit "ii".
Proof. induction n as [|n IH]; [done|]. by rewrite Nat.iter_succ, IH. Qed.

(** C3 (the code departs from the claim).  From the table whose only
    entry maps U+2171 to ["ii"], the pipeline builds the index
    [{"ii": [U+2171]}]; for the target ["iii"], whose two occurrences of
    ["ii"] overlap, [shorten_optimal] returns the single character
    U+2171, which normalises to ["ii"] and not to ["iii"]. *)
Theorem roundtrip_fails_iii :
  parse_table table_ii = Ret parsed_ii
  ∧ optimize (create_lookup parsed_ii) = Ret idx_ii
  ∧ (∀ fuel, 20 ≤ fuel →
       shorten_optimal fuel idx_ii (lit "iii") = Ret small_roman_two)
  ∧ normal_form parsed_ii small_roman_two (lit "ii")
  ∧ ¬ normal_form parsed_ii small_roman_two (lit "iii").
Proof.
  split; [vm_compute; reflexivity|]. split; [vm_compute; reflexivity|].
  split; [|split].
  - intros fuel Hfuel. apply (shorten_optimal_mono 20); [done|].
    vm_compute. reflexivity.
  - exists 1. split; reflexivity.
  - intros [[|n] [Hiter _]]; [done|]. by rewrite iter_step_ii in Hiter.
Qed.

(** * Further properties of the code *)

(** ** [create_lookup] *)

Section DictUpdate.
Context {K V : Type} `{EqDecision K}.
Implicit Types (d : list (K * V)) (k : K) (v : V).

Lemma dict_get_set d k v k' :
  dict_get (dict_set d k v) k' = if decide (k = k') then Some v else dict_get d k'.
Proof.
  induction d as [|[k0 v0] d IH]; cbn.
  - by destruct (decide (k = k')).
  - destruct (decide (k0 = k)) as [->|Hne]; cbn.
    + by destruct (decide (k = k')).
    + rewrite IH. destruct (decide (k0 = k')) as [->|]; [|done].
      by rewrite decide_False.
Qed.

Lemma keys_dict_set d k v :
  keys (dict_set d k v) = if decide (k ∈ keys d) then keys d else keys d ++ [k].
Proof.
  induction d as [|[k0 v0] d IH].
  - cbn. rewrite decide_False; [done|apply not_elem_of_nil].
  - cbn [dict_set]. change (keys ((k0, v0) :: d)) with (k0 :: keys d).
    destruct (decide (k0 = k)) as [->|Hne].
    + rewrite decide_True; [done|]. apply elem_of_cons. by left.
    + change (keys ((k0, v0) :: dict_set d k v))
        with (k0 :: keys (dict_set d k v)).
      rewrite IH. destruct (decide (k ∈ keys d)) as [Hin|Hout].
      * rewrite decide_True; [done|]. apply elem_of_cons. by right.
      * rewrite decide_False; [done|].
        intros [->|?]%elem_of_cons; done.
Qed.

Lemma NoDup_keys_dict_set d k v : NoDup (keys d) → NoDup (keys (dict_set d k v)).
Proof.
  intros Hnd. rewrite keys_dict_set. case_decide; [done|].
  apply NoDup_app. split; [done|]. split; [|apply NoDup_singleton].
  intros x Hx [->|[]%elem_of_nil]%elem_of_cons. done.
Qed.

Lemma dict_get_elem_of d k v :
  NoDup (keys d) → (k, v) ∈ d → dict_get d k = Some v.
Proof.
  induction d as [|[k0 v0] d IH]; cbn; intros Hnd Hin.
  - by apply elem_of_nil in Hin.
  - apply NoDup_cons in Hnd as [Hk0 Hnd].
    apply elem_of_cons in Hin as [[= <- <-]|Hin].
    + by rewrite decide_True.
    + rewrite decide_False; [by apply IH|]. intros ->. apply Hk0.
      by apply (list_elem_of_fmap_2 fst) in Hin.
Qed.
End DictUpdate.

Lemma sources_snoc parsed key value v :
  sources (parsed ++ [(key, value)]) v
  = sources parsed v ++ (if decide (value = v) then [key] else []).
Proof.
  unfold sources. rewrite filter_app, fmap_app. f_equal.
  rewrite filter_cons, filter_nil. cbn. by destruct (decide (value = v)).
Qed.

Lemma create_lookup_snoc parsed key value :
  create_lookup (parsed ++ [(key, value)])
  = let reverse := create_lookup parsed in
    let reverse :=
      match dict_get reverse value with
      | None => dict_set reverse value []
      | Some _ => reverse
      end in
    dict_set reverse value (default [] (dict_get reverse value) ++ [key]).
Proof. unfold create_lookup. by rewrite fold_left_app. Qed.

Lemma create_lookup_get parsed v :
  dict_get (create_lookup parsed) v
  = match sources parsed v with [] => None | l => Some l end.
Proof.
  induction parsed as [|[key value] parsed IH] using rev_ind; [done|].
  rewrite create_lookup_snoc, sources_snoc. cbn zeta.
  rewrite dict_get_set.
  destruct (decide (value = v)) as [->|Hne].
  - destruct (sources parsed v) as [|x l] eqn:Hs; rewrite !IH.
    + by rewrite dict_get_set, decide_True.
    + done.
  - rewrite app_nil_r.
    destruct (dict_get (create_lookup parsed) value) eqn:Hv; [done|].
    by rewrite dict_get_set, decide_False.
Qed.

Lemma create_lookup_NoDup parsed : NoDup (keys (create_lookup parsed)).
Proof.
  induction parsed as [|[key value] parsed IH] using rev_ind.
  - constructor.
  - rewrite create_lookup_snoc. cbn zeta. apply NoDup_keys_dict_set.
    destruct (dict_get _ value); [done|]. by apply NoDup_keys_dict_set.
Qed.

Lemma elem_of_sources parsed v key :
  key ∈ sources parsed v ↔ (key, v) ∈ parsed.
Proof.
  unfold sources. rewrite list_elem_of_fmap. split.
  - intros ([k' v'] & -> & [Hv Hin]%list_elem_of_filter). cbn in *. by subst.
  - intros Hin. exists (key, v). split; [done|].
    by apply list_elem_of_filter.
Qed.

(** X1.  [create_lookup] inverts [parsed]: under an output string it
    lists the keys of [parsed] that have this output, in the order of
    [parsed], and an output that no key has is not a key of the result. *)
Theorem create_lookup_inverts parsed v :
  dict_get (create_lookup parsed) v
  = (if decide (sources parsed v = []) then None else Some (sources parsed v))
  ∧ ∀ key, key ∈ sources parsed v ↔ (key, v) ∈ parsed.
Proof.
  split.
  - rewrite create_lookup_get. by destruct (sources parsed v).
  - intros key. apply elem_of_sources.
Qed.

(** X2.  The pipeline's index is the contract's: the result of
    [create_lookup] has no key twice, so [optimize] returns, without
    raising, the index of the contract for it. *)
Theorem optimize_create_lookup parsed :
  NoDup (keys (create_lookup parsed))
  ∧ optimize (create_lookup parsed)
    = Ret (optimize_contract (create_lookup parsed)).
Proof.
  split; [apply create_lookup_NoDup|].
  apply optimize_meets_contract, create_lookup_NoDup.
Qed.

Lemma elem_of_optimize_contract lookup long kept :
  (long, kept) ∈ optimize_contract lookup →
  ∃ shortcuts, (long, shortcuts) ∈ lookup
               ∧ kept = shortest (shorter_than long shortcuts).
Proof.
  unfold optimize_contract. intros Hin.
  apply list_elem_of_bind in Hin as ([long' shortcuts] & Hentry & Hin).
  unfold contract_entry in Hentry.
  destruct (shortest (shorter_than long' shortcuts)) eqn:Hs;
    [by apply elem_of_nil in Hentry|].
  apply list_elem_of_singleton in Hentry as [= -> ->].
  exists shortcuts. by rewrite Hs.
Qed.

Lemma index_shortcuts_in_parsed parsed idx long kept sc :
  optimize (create_lookup parsed) = Ret idx →
  (long, kept) ∈ idx → sc ∈ kept →
  (sc, long) ∈ parsed ∧ length sc < length long.
Proof.
  intros Hrun Hentry Hsc.
  rewrite (optimize_meets_contract _ (create_lookup_NoDup parsed)) in Hrun.
  injection Hrun as <-.
  apply elem_of_optimize_contract in Hentry as (shortcuts & Hin & ->).
  apply list_elem_of_filter in Hsc as [_ Hsc].
  apply list_elem_of_filter in Hsc as [Hlen Hsc]. split; [|done].
  apply dict_get_elem_of in Hin; [|apply create_lookup_NoDup].
  rewrite create_lookup_get in Hin.
  apply elem_of_sources.
  destruct (sources parsed long); [done|]. by injection Hin as <-.
Qed.

(** X3.  Every shortcut of the pipeline's index is a key of [parsed]
    whose output is the key of the index it stands under, and it is
    strictly shorter than that key. *)
Theorem index_shortcuts_sound parsed idx long kept sc :
  optimize (create_lookup parsed) = Ret idx →
  (long, kept) ∈ idx → sc ∈ kept →
  (sc, long) ∈ parsed ∧ length sc < length long.
Proof. apply index_shortcuts_in_parsed. Qed.

Lemma index_shortcuts_sound_witness :
  (small_roman_two, lit "ii") ∈ parsed_ii
  ∧ length small_roman_two < length (lit "ii").
Proof.
  apply (index_shortcuts_sound parsed_ii idx_ii (lit "ii") [small_roman_two]).
  - vm_compute. reflexivity.
  - apply elem_of_cons. by left.
  - apply elem_of_cons. by left.
Defined.

(** ** [parse_table] *)

Lemma for_each_preserves {A S} (Inv : S → Prop) (P : A → Prop)
    (body : S → A → result S) :
  (∀ st x st', P x → body st x = Ret st' → Inv st → Inv st') →
  ∀ l st st', Forall P l → for_each l body st = Ret st' → Inv st → Inv st'.
Proof.
  intros Hbody. induction l as [|x l IH]; intros st st' Hl.
  - by intros [= <-].
  - apply Forall_cons in Hl as [Hx Hl]. cbn [for_each].
    destruct (body st x) as [st1| |] eqn:Hrun; run; [|done..].
    intros Hrest Hst. eapply IH; eauto.
Qed.

Lemma map_result_Forall {A B} (f : A → result B) (Q : B → Prop) :
  (∀ x y, f x = Ret y → Q y) →
  ∀ l ys, map_result f l = Ret ys → Forall Q ys.
Proof.
  intros Hf. induction l as [|x l IH]; intros ys; cbn [map_result].
  - intros [= <-]. constructor.
  - destruct (f x) as [y| |] eqn:Hy; run; [|done..].
    destruct (map_result f l) as [ys'| |]; run; [|done..].
    intros [= <-]. constructor; eauto.
Qed.

Lemma int2unicode_code_point i c : int2unicode i = Ret c → code_point c.
Proof.
  unfold int2unicode. destruct (N.leb_spec i 1114111); [|done].
  intros [= <-]. by exists i.
Qed.

Lemma code2unicode_code_point code c : code2unicode code = Ret c → code_point c.
Proof.
  unfold code2unicode. destruct (int16 code); run; [|done..].
  apply int2unicode_code_point.
Qed.

Lemma Forall_dict_set {K V} `{EqDecision K} (Q : K * V → Prop) d k v :
  Forall Q d → Q (k, v) → Forall Q (dict_set d k v).
Proof.
  intros Hd Hkv. induction d as [|[k0 v0] d IH]; cbn.
  - by constructor.
  - apply Forall_cons in Hd as [H0 Hd]. case_decide; constructor; auto.
Qed.

Lemma parse_line_entries_ok entries line entries' :
  parse_line entries line = Ret entries' →
  entries_ok entries → entries_ok entries'.
Proof.
  unfold parse_line. destruct (re_match line_pattern line) as [parts|];
    [|by intros [= <-]].
  destruct (parts !! 1) as [chars|]; run; [|done].
  destruct (parts !! 2) as [state|]; run; [|done].
  cbn [fmap option_fmap option_map]. run.
  case_decide; [by intros [= <-]|].
  set (cs := if contains (lit "..") chars then _ else _).
  assert (Hcs : ∀ l, cs = Ret l → Forall code_point l).
  { subst cs. intros l. destruct (contains (lit "..") chars).
    - destruct (map_result int16 _) as [bounds| |]; run; [|done..].
      destruct bounds as [|start [|end_ [|]]]; try done.
      apply map_result_Forall, int2unicode_code_point.
    - destruct (code2unicode chars) as [c| |] eqn:Hc; run; [|done..].
      intros [= <-]. repeat constructor.
      by eapply code2unicode_code_point. }
  destruct cs as [l| |]; run; [|done..]. specialize (Hcs l eq_refl).
  destruct (parts !! 3) as [p|]; cbn [fmap option_fmap option_map]; run;
    [|done].
  intros Hrun. revert Hcs Hrun. apply for_each_preserves.
  intros st char st' Hchar.
  destruct (map_result code2unicode _); run; [|done..].
  intros [= <-] [Hnd Hall]. split.
  - by apply NoDup_keys_dict_set.
  - by apply Forall_dict_set.
Qed.

Lemma parse_table_entries_ok table parsed :
  parse_table table = Ret parsed → entries_ok parsed.
Proof.
  unfold parse_table. intros Hrun.
  eapply (for_each_preserves entries_ok (λ _, True)); [| |exact Hrun|].
  - intros st line st' _. apply parse_line_entries_ok.
  - by apply Forall_forall.
  - split; constructor.
Qed.

(** X4.  The keys of the dictionary that [parse_table] returns are
    single code points of the Unicode range, and no key occurs twice. *)
Theorem parse_table_keys table parsed :
  parse_table table = Ret parsed →
  NoDup (keys parsed)
  ∧ Forall (λ kv, ∃ i, kv.1 = [i] ∧ (i ≤ 1114111)%N) parsed.
Proof. apply parse_table_entries_ok. Qed.

Lemma parse_table_keys_witness :
  NoDup (keys parsed_ii)
  ∧ Forall (λ kv, ∃ i, kv.1 = [i] ∧ (i ≤ 1114111)%N) parsed_ii.
Proof.
  apply (parse_table_keys table_ii). vm_compute. reflexivity.
Defined.

(** X5.  A line that does not begin with an upper-case hexadecimal
    digit (an empty line, a comment) adds no entry and raises nothing. *)
Theorem parse_line_skips entries line :
  (∀ c, head line = Some c → is_hex c = false) →
  parse_line entries line = Ret entries.
Proof.
  intros Hhead. unfold parse_line, re_match, line_pattern, AtLeast4.
  destruct line as [|c rest]; cbn [rmatch Nat.eqb]; [done|].
  by rewrite (Hhead c eq_refl).
Qed.

Lemma parse_line_skips_witness :
  parse_line parsed_ii (lit "# IdnaMappingTable.txt") = Ret parsed_ii.
Proof.
  apply parse_line_skips. intros c [= <-]. vm_compute. reflexivity.
Defined.

Lemma split_aux_line cur l rest :
  10%N ∉ l →
  split_aux nl 0 cur (l ++ 10%N :: rest) = (cur ++ l) :: split_aux nl 0 [] rest.
Proof.
  revert cur. induction l as [|c l IH]; intros cur Hl.
  - cbn. by rewrite app_nil_r.
  - apply not_elem_of_cons in Hl as [Hc Hl].
    cbn [app split_aux is_prefix nl].
    rewrite decide_False by done.
    rewrite IH by done. by rewrite <- app_assoc.
Qed.

Lemma split_lines hs rest :
  Forall (λ h, 10%N ∉ h) hs →
  split (concat ((λ h, h ++ nl) <$> hs) ++ rest) nl = hs ++ split rest nl.
Proof.
  unfold split. induction 1 as [|h hs Hh _ IH]; [done|].
  cbn [fmap list_fmap concat]. rewrite <- !app_assoc. cbn [nl app].
  rewrite split_aux_line by done. by rewrite IH.
Qed.

(** X6.  The first eleven lines of the table never reach the result:
    two tables that differ in these lines only parse alike. *)
Theorem parse_table_ignores_header hs1 hs2 rest :
  length hs1 = 11 → length hs2 = 11 →
  Forall (λ h, 10%N ∉ h) hs1 → Forall (λ h, 10%N ∉ h) hs2 →
  parse_table (concat ((λ h, h ++ nl) <$> hs1) ++ rest)
  = parse_table (concat ((λ h, h ++ nl) <$> hs2) ++ rest).
Proof.
  intros Hlen1 Hlen2 Hhs1 Hhs2. unfold parse_table. fold nl.
  rewrite !split_lines by done.
  by rewrite !drop_app_length' by done.
Qed.

Lemma parse_table_ignores_header_witness :
  parse_table (concat ((λ h, h ++ nl) <$> replicate 11 line_A) ++ line_ii)
  = parse_table (concat ((λ h, h ++ nl) <$> replicate 11 []) ++ line_ii).
Proof.
  apply parse_table_ignores_header; try reflexivity.
  - apply (bool_decide_unpack _). vm_compute. exact I.
  - apply (bool_decide_unpack _). vm_compute. exact I.
Defined.

(** ** The graph that [shorten_optimal] builds *)

Lemma append_at_lookup m k x j :
  default [] (append_at m k x !! j)
  = if decide (id k = j) then default [] (m !! j) ++ [x] else default [] (m !! j).
Proof.
  unfold append_at. rewrite lookup_insert. case_decide; [by subst|done].
Qed.

Lemma succs_of_add_edge g x y u :
  succs_of (add_edge g x y) u
  = if decide (id x = u) then succs_of g u ++ [y] else succs_of g u.
Proof. unfold succs_of, add_edge. cbn. apply append_at_lookup. Qed.

Lemma preds_of_add_edge g x y v :
  preds_of (add_edge g x y) v
  = if decide (id y = v) then preds_of g v ++ [x] else preds_of g v.
Proof. unfold preds_of, add_edge. cbn. apply append_at_lookup. Qed.

Lemma edge_add_edge g x y u v :
  edge (add_edge g x y) u v ↔ edge g u v ∨ (u = id x ∧ v = id y).
Proof.
  unfold edge. fold (succs_of (add_edge g x y) u). fold (succs_of g u).
  rewrite succs_of_add_edge. case_decide as Hx.
  - rewrite fmap_app, elem_of_app. cbn. rewrite list_elem_of_singleton.
    intuition congruence.
  - intuition congruence.
Qed.

Lemma graph_wf_init : graph_wf DAG_init.
Proof.
  split; unfold succs_of, preds_of; cbn.
  - intros i v Hi. by rewrite lookup_nil in Hi.
  - intros u w. rewrite lookup_empty. cbn. by intros ?%elem_of_nil.
  - intros u w. rewrite lookup_empty. cbn. by intros ?%elem_of_nil.
  - intros a b. rewrite !lookup_empty. cbn. split; by intros ?%elem_of_nil.
Qed.

Lemma graph_wf_add_node g v :
  graph_wf g → graph_wf (add_node g v).1.
Proof.
  intros [Hids Hfrom Hto Hmirror]. split; cbn.
  - intros i w Hi. apply lookup_app_Some in Hi as [Hi|[Hle Hi]]; [eauto|].
    apply list_lookup_singleton_Some in Hi as [Hi <-]. cbn. lia.
  - intros u w Hw. apply elem_of_app. left. by eapply Hfrom.
  - intros u w Hw. apply elem_of_app. left. by eapply Hto.
  - exact Hmirror.
Qed.

Lemma graph_wf_add_edge g x y :
  graph_wf g → x ∈ nodes g → y ∈ nodes g → graph_wf (add_edge g x y).
Proof.
  intros [Hids Hfrom Hto Hmirror] Hx Hy. split.
  - exact Hids.
  - intros u w. rewrite succs_of_add_edge. case_decide; [|by apply Hfrom].
    intros [Hw|Hw%list_elem_of_singleton]%elem_of_app; [by eapply Hfrom|].
    by subst.
  - intros v u. rewrite preds_of_add_edge. case_decide; [|by apply Hto].
    intros [Hu|Hu%list_elem_of_singleton]%elem_of_app; [by eapply Hto|].
    by subst.
  - intros a b. rewrite succs_of_add_edge, preds_of_add_edge.
    specialize (Hmirror a b).
    destruct (decide (id y = b)) as [<-|Hb], (decide (id x = a)) as [<-|Ha];
      rewrite ?fmap_app, ?elem_of_app; cbn;
      rewrite ?list_elem_of_singleton; intuition congruence.
Qed.

Lemma fold_chain_wf s : ∀ g cn last,
  graph_wf g → last ∈ nodes g →
  graph_wf (fold_left chain_step s (g, cn, last)).1.1
  ∧ (fold_left chain_step s (g, cn, last)).2
    ∈ nodes (fold_left chain_step s (g, cn, last)).1.1.
Proof.
  induction s as [|c s IH]; intros g cn last Hwf Hlast; [done|].
  cbn [fold_left chain_step add_node]. apply IH.
  - apply graph_wf_add_edge.
    + by apply (graph_wf_add_node g (Some [c])).
    + cbn. apply elem_of_app. by left.
    + cbn. apply elem_of_app. right. by apply list_elem_of_singleton.
  - cbn. apply elem_of_app. right. by apply list_elem_of_singleton.
Qed.

Lemma build_chain_wf s : graph_wf (build_chain s).1.1.1.
Proof.
  unfold build_chain. cbn [add_node DAG_init nodes length app].
  pose proof (fold_chain_wf s (mkDAG [mkNode None 0] ∅ ∅) []
                (mkNode None 0)) as Hfold.
  destruct (fold_left chain_step s _) as [[g cn] last]. cbn in Hfold.
  destruct Hfold as [Hwf Hlast].
  - pose proof (graph_wf_add_node DAG_init None graph_wf_init) as H0.
    exact H0.
  - apply list_elem_of_singleton. done.
  - cbn [add_node fst]. apply graph_wf_add_edge.
    + by apply (graph_wf_add_node g None).
    + cbn. apply elem_of_app. by left.
    + cbn. apply elem_of_app. right. by apply list_elem_of_singleton.
Qed.

Lemma chain_lookup_is_Some s j : j ≤ S (length s) → is_Some (chain s !! j).
Proof. intros Hj. apply lookup_lt_is_Some. rewrite length_chain. lia. Qed.

Lemma build_chain_inv s : graph_inv s (build_chain s).1.1.1.
Proof.
  pose proof (build_chain_wf s) as Hwf.
  destruct (build_chain_spec s) as (g0 & Heq & Hnodes & Hedges).
  rewrite Heq in *. cbn [fst] in *.
  assert (Hedge : ∀ u v, edge g0 u v ↔ u ≤ length s ∧ v = S u).
  { intros u v. unfold edge. rewrite Hedges.
    destruct (decide (u ≤ length s)) as [Hu|Hu].
    - destruct (chain_lookup_is_Some s (S u)) as [w Hw]; [lia|].
      rewrite Hw. cbn. rewrite list_elem_of_singleton.
      rewrite (chain_lookup_id _ _ _ Hw). intuition.
    - cbn. split; [by intros ?%elem_of_nil|]. by intros [? _]. }
  split.
  - done.
  - rewrite Hnodes. apply firstn_all2. rewrite length_chain. lia.
  - intros j Hj. by apply Hedge.
  - intros u v [Hu ->]%Hedge. lia.
Qed.

Lemma graph_inv_length s g : graph_inv s g → S (S (length s)) ≤ length (nodes g).
Proof.
  intros [_ Hchain _ _]. apply (f_equal length) in Hchain.
  rewrite length_take, length_chain in Hchain. lia.
Qed.

Lemma graph_inv_add_node s g v : graph_inv s g → graph_inv s (add_node g v).1.
Proof.
  intros Hinv. pose proof (graph_inv_length s g Hinv) as Hlen.
  destruct Hinv as [Hwf Hchain Hedges Hsent]. split.
  - by apply graph_wf_add_node.
  - cbn. by rewrite take_app_le.
  - exact Hedges.
  - exact Hsent.
Qed.

Lemma graph_inv_add_edge s g x y :
  graph_inv s g → x ∈ nodes g → y ∈ nodes g →
  id x ≠ S (length s) → id y ≠ 0 →
  graph_inv s (add_edge g x y).
Proof.
  intros [Hwf Hchain Hedges Hsent] Hx Hy Hidx Hidy. split.
  - by apply graph_wf_add_edge.
  - exact Hchain.
  - intros j Hj. apply edge_add_edge. left. by apply Hedges.
  - intros u v [Huv|[-> ->]]%edge_add_edge; [by apply Hsent|done].
Qed.

(** The nodes of [succs_of g u] are targets of edges, those of
    [preds_of g v] are sources. *)
Lemma succs_of_edge g u w : w ∈ succs_of g u → edge g u (id w).
Proof. intros Hw. unfold edge. by apply list_elem_of_fmap_2. Qed.

Lemma preds_of_edge g v u : graph_wf g → u ∈ preds_of g v → edge g (id u) v.
Proof.
  intros Hwf Hu. unfold edge. apply (wf_mirror g Hwf).
  by apply list_elem_of_fmap_2.
Qed.

Lemma link_inv s g n start_node end_node :
  graph_inv s g → n ∈ nodes g → id n ≠ 0 → id n ≠ S (length s) →
  graph_inv s (link g n start_node end_node)
  ∧ nodes (link g n start_node end_node) = nodes g.
Proof.
  intros Hinv Hn Hn0 Hnend. unfold link.
  assert (Hfroms : Forall (λ a, a ∈ nodes g ∧ id a ≠ S (length s))
                          (predecessors g start_node)).
  { apply Forall_forall. intros a Ha. split.
    - by eapply (wf_to g (inv_wf s g Hinv)).
    - apply (preds_of_edge g _ _ (inv_wf s g Hinv)) in Ha.
      by apply (inv_sentinels s g Hinv) in Ha as [_ ?]. }
  assert (Hinner : ∀ tos g1 a,
    graph_inv s g1 → nodes g1 = nodes g →
    a ∈ nodes g → id a ≠ S (length s) →
    Forall (λ b, b ∈ nodes g ∧ id b ≠ 0) tos →
    graph_inv s (fold_left
                   (λ g2 to_node, add_edge (add_edge g2 a n) n to_node)
                   tos g1)
    ∧ nodes (fold_left
               (λ g2 to_node, add_edge (add_edge g2 a n) n to_node)
               tos g1) = nodes g).
  { induction tos as [|b tos IH]; intros g1 a Hg1 Hnodes Ha Haend Htos;
      [done|].
    apply Forall_cons in Htos as [[Hb Hb0] Htos]. cbn [fold_left].
    apply IH; [|done..].
    apply graph_inv_add_edge; [|by cbn; rewrite Hnodes..|done|done].
    apply graph_inv_add_edge; [done|by rewrite Hnodes..|done|done]. }
  revert Hfroms. generalize (predecessors g start_node). intros froms.
  assert (Hgen : ∀ g1, graph_inv s g1 → nodes g1 = nodes g →
    Forall (λ a, a ∈ nodes g ∧ id a ≠ S (length s)) froms →
    graph_inv s
      (fold_left
         (λ g2 from_node,
            fold_left
              (λ g3 to_node, add_edge (add_edge g3 from_node n) n to_node)
              (successors g2 end_node) g2) froms g1)
    ∧ nodes
        (fold_left
           (λ g2 from_node,
              fold_left
                (λ g3 to_node, add_edge (add_edge g3 from_node n) n to_node)
                (successors g2 end_node) g2) froms g1) = nodes g).
  { induction froms as [|a froms IH]; intros g1 Hg1 Hnodes Hfroms; [done|].
    apply Forall_cons in Hfroms as [[Ha Haend] Hfroms]. cbn [fold_left].
    destruct (Hinner (successors g1 end_node) g1 a) as [Hg2 Hnodes2];
      [done..| |by apply IH].
    apply Forall_forall. intros b Hb. split.
    - rewrite <- Hnodes. by eapply (wf_from g1 (inv_wf s g1 Hg1)).
    - apply succs_of_edge in Hb.
      by apply (inv_sentinels s g1 Hg1) in Hb as [? _]. }
  intros Hfroms. by apply Hgen.
Qed.

Lemma occurrences_inv s long cn n fuel : ∀ g start_pos g',
  occurrences fuel s long cn n g start_pos = Ret g' →
  graph_inv s g → n ∈ nodes g → id n ≠ 0 → id n ≠ S (length s) →
  graph_inv s g' ∧ nodes g' = nodes g.
Proof.
  induction fuel as [|fuel IH]; intros g start_pos g'; [done|].
  cbn [occurrences].
  destruct (find s long start_pos =? -1)%Z; [by intros [= <-]|].
  destruct (py_index cn (find s long start_pos)) as [sn| |]; [|done..].
  destruct (py_index cn _) as [en| |]; [|done..]. run.
  intros Hrun Hinv Hn Hn0 Hnend.
  destruct (link_inv s g n sn en Hinv Hn Hn0 Hnend) as [Hinv1 Hnodes1].
  destruct (IH _ _ _ Hrun Hinv1) as [Hinv' Hnodes']; [by rewrite Hnodes1|done..|].
  split; [done|congruence].
Qed.

Lemma shortcuts_inv s cn fuel idx : ∀ g g',
  for_each idx (add_shortcut fuel s cn) g = Ret g' →
  graph_inv s g →
  graph_inv s g'
  ∧ nodes g' = nodes g
               ++ imap (λ i item, mkNode (item.2 !! 0) (length (nodes g) + i))
                       idx.
Proof.
  induction idx as [|[long shortcuts] idx IH]; intros g g'.
  - intros [= <-] Hinv. cbn. by rewrite app_nil_r.
  - cbn [for_each add_shortcut].
    destruct (shortcuts !! 0) as [shortcut|] eqn:Hsc; run; [|done].
    cbn [add_node].
    destruct (occurrences _ _ _ _ _ _ _) as [g1| |] eqn:Hocc; [|done..]. run.
    intros Hrest Hinv.
    pose proof (graph_inv_length s g Hinv) as Hlen.
    apply occurrences_inv in Hocc as [Hinv1 Hnodes1].
    + destruct (IH _ _ Hrest Hinv1) as [Hinv' Hnodes'].
      split; [done|]. rewrite Hnodes', Hnodes1. cbn [nodes].
      rewrite length_app, <- app_assoc. cbn [length app imap snd].
      f_equal. f_equal; [f_equal; [done|lia]|].
      apply imap_ext. intros i item _. cbn. f_equal. lia.
    + by apply (graph_inv_add_node s g (Some shortcut)).
    + cbn. apply elem_of_app. right. by apply list_elem_of_singleton.
    + cbn. lia.
    + cbn. lia.
Qed.

Lemma build_graph_inv fuel idx s g start end_ :
  build_graph fuel idx s = Ret (g, start, end_) →
  graph_inv s g
  ∧ start = mkNode None 0 ∧ end_ = mkNode None (S (length s))
  ∧ nodes g = chain s
              ++ imap (λ i item, mkNode (item.2 !! 0) (length s + 2 + i)) idx.
Proof.
  unfold build_graph. pose proof (build_chain_inv s) as Hinv0.
  destruct (build_chain_spec s) as (g0 & Heq & Hnodes & _).
  rewrite Heq in *. cbn [fst] in Hinv0.
  destruct (for_each idx _ g0) as [g1| |] eqn:Hrun; run; [|done..].
  intros [= <- <- <-].
  apply shortcuts_inv in Hrun as [Hinv Hnodes']; [|done].
  split; [done|]. do 2 (split; [done|]).
  rewrite Hnodes', Hnodes, length_chain. f_equal.
  apply imap_ext. intros i item _. cbn. f_equal. lia.
Qed.

Lemma nodes_id_inj g a b :
  graph_wf g → a ∈ nodes g → b ∈ nodes g → id a = id b → a = b.
Proof.
  intros Hwf [i Hi]%list_elem_of_lookup [j Hj]%list_elem_of_lookup Hid.
  rewrite (wf_ids g Hwf _ _ Hi), (wf_ids g Hwf _ _ Hj) in Hid. subst j.
  congruence.
Qed.

(** X7.  The nodes of the graph are, in the order of their ids: [start],
    one node for each character of the target, [end], and one node for
    each entry of the index, whose value is the entry's first shortcut;
    the id of every node is its position in [g.nodes]. *)
Theorem build_graph_nodes fuel idx s g start end_ :
  build_graph fuel idx s = Ret (g, start, end_) →
  start = mkNode None 0
  ∧ end_ = mkNode None (S (length s))
  ∧ nodes g = (mkNode None 0 :: imap (λ i c, mkNode (Some [c]) (S i)) s)
              ++ [mkNode None (S (length s))]
              ++ imap (λ i item, mkNode (item.2 !! 0) (length s + 2 + i)) idx
  ∧ ∀ i v, nodes g !! i = Some v → id v = i.
Proof.
  intros Hrun. apply build_graph_inv in Hrun as (Hinv & -> & -> & Hnodes).
  do 2 (split; [done|]). split.
  - rewrite Hnodes. unfold chain, pre. by rewrite <- app_assoc.
  - apply (wf_ids g (inv_wf s g Hinv)).
Qed.

Lemma build_graph_nodes_witness :
  n_start = mkNode None 0
  ∧ n_end = mkNode None (S (length cabcabc))
  ∧ nodes graph_cabcabc
    = (mkNode None 0 :: imap (λ i c, mkNode (Some [c]) (S i)) cabcabc)
      ++ [mkNode None (S (length cabcabc))]
      ++ imap (λ i item, mkNode (item.2 !! 0) (length cabcabc + 2 + i)) idx_ab
  ∧ ∀ i v, nodes graph_cabcabc !! i = Some v → id v = i.
Proof. exact (build_graph_nodes 3 _ _ _ _ _ graph_cabcabc_eq). Defined.

(** X8.  The two edge tables of the graph agree, and they hold nodes of
    the graph only: for nodes [a] and [b] of the graph, [a] is among the
    predecessors of [b] exactly when [b] is among the successors of [a]. *)
Theorem build_graph_mirror fuel idx s g start end_ :
  build_graph fuel idx s = Ret (g, start, end_) →
  (∀ a b, a ∈ nodes g → b ∈ nodes g →
          a ∈ predecessors g b ↔ b ∈ successors g a)
  ∧ (∀ a b, a ∈ predecessors g b → a ∈ nodes g)
  ∧ (∀ a b, b ∈ successors g a → b ∈ nodes g).
Proof.
  intros Hrun. apply build_graph_inv in Hrun as (Hinv & _).
  pose proof (inv_wf s g Hinv) as Hwf. split; [|split].
  - intros a b Ha Hb. unfold predecessors, successors.
    fold (preds_of g (id b)). fold (succs_of g (id a)). split.
    + intros Hin. apply (list_elem_of_fmap_2 id) in Hin.
      apply (wf_mirror g Hwf) in Hin.
      apply list_elem_of_fmap in Hin as (b' & Hid & Hb').
      assert (b = b') as ->; [|done].
      apply (nodes_id_inj g); [done..| |done]. by eapply (wf_from g Hwf).
    + intros Hin. apply (list_elem_of_fmap_2 id) in Hin.
      apply (wf_mirror g Hwf) in Hin.
      apply list_elem_of_fmap in Hin as (a' & Hid & Ha').
      assert (a = a') as ->; [|done].
      apply (nodes_id_inj g); [done..| |done]. by eapply (wf_to g Hwf).
  - intros a b. apply (wf_to g Hwf).
  - intros a b. apply (wf_from g Hwf).
Qed.

Lemma build_graph_mirror_witness :
  (∀ a b, a ∈ nodes graph_cabcabc → b ∈ nodes graph_cabcabc →
          a ∈ predecessors graph_cabcabc b ↔ b ∈ successors graph_cabcabc a)
  ∧ (∀ a b, a ∈ predecessors graph_cabcabc b → a ∈ nodes graph_cabcabc)
  ∧ (∀ a b, b ∈ successors graph_cabcabc a → b ∈ nodes graph_cabcabc).
Proof. exact (build_graph_mirror 3 _ _ _ _ _ graph_cabcabc_eq). Defined.

(** X9.  No edge enters [start] and no edge leaves [end]. *)
Theorem build_graph_sentinels fuel idx s g start end_ :
  build_graph fuel idx s = Ret (g, start, end_) →
  predecessors g start = [] ∧ successors g end_ = [].
Proof.
  intros Hrun. apply build_graph_inv in Hrun as (Hinv & -> & -> & _).
  pose proof (inv_wf s g Hinv) as Hwf. split.
  - destruct (predecessors g _) as [|u l] eqn:Hp; [done|]. exfalso.
    assert (Hu : u ∈ preds_of g 0)
      by (unfold predecessors in Hp; unfold preds_of; cbn in Hp;
          rewrite Hp; apply elem_of_cons; by left).
    apply (preds_of_edge g _ _ Hwf) in Hu.
    by apply (inv_sentinels s g Hinv) in Hu as [? _].
  - destruct (successors g _) as [|w l] eqn:Hp; [done|]. exfalso.
    assert (Hw : w ∈ succs_of g (S (length s)))
      by (unfold successors in Hp; unfold succs_of; cbn in Hp;
          rewrite Hp; apply elem_of_cons; by left).
    apply succs_of_edge in Hw.
    by apply (inv_sentinels s g Hinv) in Hw as [_ ?].
Qed.

Lemma build_graph_sentinels_witness :
  predecessors graph_cabcabc n_start = []
  ∧ successors graph_cabcabc n_end = [].
Proof. exact (build_graph_sentinels 3 _ _ _ _ _ graph_cabcabc_eq). Defined.

Lemma chain_reachable s g j :
  graph_inv s g → j ≤ length s → tc (edge g) 0 (S j).
Proof.
  intros Hinv. induction j as [|j IH]; intros Hj.
  - apply tc_once. by apply (inv_chain_edges s g Hinv).
  - eapply tc_r; [apply IH; lia|]. by apply (inv_chain_edges s g Hinv).
Qed.

(** X10.  [end] can be reached from [start] in every graph that is
    built: the edges of the chain stay in place. *)
Theorem build_graph_end_reachable fuel idx s g start end_ :
  build_graph fuel idx s = Ret (g, start, end_) →
  tc (edge g) (id start) (id end_).
Proof.
  intros Hrun. apply build_graph_inv in Hrun as (Hinv & -> & -> & _).
  by apply (chain_reachable s g (length s)).
Qed.

Lemma build_graph_end_reachable_witness :
  tc (edge graph_cabcabc) (id n_start) (id n_end).
Proof. exact (build_graph_end_reachable 3 _ _ _ _ _ graph_cabcabc_eq). Defined.

(** ** The search for a shortest path *)

Section Search.
Variable g : DAG.
Variable s0 : nat.
Variable Good : Node → Prop.
Hypothesis Good_succs : ∀ u w, w ∈ succs_of g u → Good w.

Lemma relax_inv current d pred dist q w :
  bfs_inv g s0 Good (Some (id current)) pred dist q →
  dist !! id current = Some d → Good current →
  w ∈ succs_of g (id current) →
  ∃ pred' dist',
    relax current (pred, dist, q) w = Ret (pred', dist', q ++ [w])
    ∧ bfs_inv g s0 Good (Some (id current)) pred' dist' (q ++ [w])
    ∧ dist' !! id current = Some d
    ∧ (∃ dw, dist' !! id w = Some dw ∧ dw ≤ d + 1)
    ∧ (∀ x dx, dist !! x = Some dx → ∃ dx', dist' !! x = Some dx' ∧ dx' ≤ dx).
Proof.
  intros [[Hs0d Hs0p] Hpred Hdom Hq Hclosed] Hd Hgood Hw.
  unfold relax. rewrite Hd. run. unfold improve.
  assert (Hupd :
    (dist !! id w = None ∨ ∃ d', dist !! id w = Some d' ∧ d + 1 < d') →
    bfs_inv g s0 Good (Some (id current))
            (<[id w := Some current]> pred) (<[id w := d + 1]> dist)
            (q ++ [w])
    ∧ <[id w := d + 1]> dist !! id current = Some d
    ∧ (∃ dw, <[id w := d + 1]> dist !! id w = Some dw ∧ dw ≤ d + 1)
    ∧ (∀ x dx, dist !! x = Some dx →
               ∃ dx', <[id w := d + 1]> dist !! x = Some dx' ∧ dx' ≤ dx)).
  { intros Hcase.
    assert (Hws0 : id w ≠ s0).
    { intros Heq. rewrite Heq, Hs0d in Hcase.
      destruct Hcase as [?|(d' & [= <-] & ?)]; [done|lia]. }
    assert (Hwc : id w ≠ id current).
    { intros Heq. rewrite Heq, Hd in Hcase.
      destruct Hcase as [?|(d' & [= <-] & ?)]; [done|lia]. }
    assert (Hmono : ∀ x dx, dist !! x = Some dx →
               ∃ dx', <[id w := d + 1]> dist !! x = Some dx' ∧ dx' ≤ dx).
    { intros x dx Hx. rewrite lookup_insert. case_decide as Hxw.
      - subst x. exists (d + 1). split; [done|].
        rewrite Hx in Hcase.
        destruct Hcase as [?|(d' & [= <-] & ?)]; [done|lia].
      - by exists dx. }
    split; [|split; [|split]].
    - split.
      + by rewrite !lookup_insert_ne.
      + intros v dv Hv Hvs0. rewrite lookup_insert in Hv.
        rewrite (lookup_insert pred). destruct (decide (id w = v)) as [Hvw|Hvw].
        * subst v. injection Hv as <-. exists current, d.
          rewrite lookup_insert_ne by done.
          repeat split; [done|lia| |done]. by apply succs_of_edge.
        * destruct (Hpred v dv Hv Hvs0) as (u & du & Hpu & Hdu & Hle & He & Hg).
          destruct (Hmono _ _ Hdu) as (du' & Hdu' & Hle').
          exists u, du'. repeat split; [done..|lia|done|done].
      + intros v. rewrite !lookup_insert. case_decide; [eauto|apply Hdom].
      + apply Forall_app. split.
        * eapply Forall_impl; [exact Hq|]. cbn. intros v [[dv Hv] Hgv].
          split; [|done]. destruct (Hmono _ _ Hv) as (dv' & -> & _). eauto.
        * repeat constructor; [|by eapply Good_succs].
          rewrite lookup_insert_eq. eauto.
      + intros u du Hu Hex. rewrite fmap_app, elem_of_app.
        rewrite lookup_insert in Hu. case_decide as Huw.
        * left. right. subst u. cbn. by apply list_elem_of_singleton.
        * destruct (Hclosed u du Hu Hex) as [Hin|Hsucc]; [by left; left|].
          right. intros w' Hw'.
          destruct (Hsucc w' Hw') as (dw' & Hdw' & Hle).
          destruct (Hmono _ _ Hdw') as (dw'' & Hdw'' & Hle').
          exists dw''. split; [done|lia].
    - by rewrite lookup_insert_ne.
    - exists (d + 1). by rewrite lookup_insert_eq.
    - exact Hmono. }
  destruct (dist !! id w) as [d'|] eqn:Hdw.
  - destruct (d + 1 <? d') eqn:Hlt.
    + apply Nat.ltb_lt in Hlt. eexists _, _. split; [done|].
      apply Hupd. right. eauto.
    + apply Nat.ltb_ge in Hlt. eexists _, _. split; [done|].
      split; [|split; [done|split; [by eauto|by eauto]]].
      split; [done..| | ].
      * apply Forall_app. split; [done|]. repeat constructor; [by eauto|].
        by eapply Good_succs.
      * intros u du Hu Hex. rewrite fmap_app, elem_of_app.
        destruct (Hclosed u du Hu Hex); [by left; left|by right].
  - eexists _, _. split; [done|]. apply Hupd. by left.
Qed.
Lemma relax_loop_inv current d ws : ∀ pred dist q,
  bfs_inv g s0 Good (Some (id current)) pred dist q →
  dist !! id current = Some d → Good current →
  Forall (λ w, w ∈ succs_of g (id current)) ws →
  ∃ pred' dist',
    for_each ws (relax current) (pred, dist, q) = Ret (pred', dist', q ++ ws)
    ∧ bfs_inv g s0 Good (Some (id current)) pred' dist' (q ++ ws)
    ∧ dist' !! id current = Some d
    ∧ Forall (λ w, ∃ dw, dist' !! id w = Some dw ∧ dw ≤ d + 1) ws
    ∧ (∀ x dx, dist !! x = Some dx → ∃ dx', dist' !! x = Some dx' ∧ dx' ≤ dx).
Proof.
  induction ws as [|w ws IH]; intros pred dist q Hinv Hd Hgood Hws.
  - exists pred, dist. rewrite app_nil_r. do 3 (split; [done|]).
    split; [constructor|]. intros x dx Hx. by exists dx.
  - apply Forall_cons in Hws as [Hw Hws]. cbn [for_each].
    destruct (relax_inv current d pred dist q w Hinv Hd Hgood Hw)
      as (pred1 & dist1 & -> & Hinv1 & Hd1 & Hw1 & Hmono1). run.
    destruct (IH pred1 dist1 (q ++ [w]) Hinv1 Hd1 Hgood Hws)
      as (pred' & dist' & Hrun & Hinv' & Hd' & Hws' & Hmono').
    exists pred', dist'. rewrite Hrun, <- app_assoc. cbn [app].
    rewrite <- app_assoc in Hinv'. cbn [app] in Hinv'.
    do 3 (split; [done|]). split.
    + constructor; [|done]. destruct Hw1 as (dw & Hdw & Hle).
      destruct (Hmono' _ _ Hdw) as (dw' & Hdw' & Hle').
      exists dw'. split; [done|lia].
    + intros x dx Hx. destruct (Hmono1 _ _ Hx) as (dx1 & Hdx1 & Hle1).
      destruct (Hmono' _ _ Hdx1) as (dx' & Hdx' & Hle').
      exists dx'. split; [done|lia].
Qed.

(** One turn of the [while] loop keeps the invariant. *)
Lemma bfs_step_inv current pred dist q :
  bfs_inv g s0 Good None pred dist (current :: q) →
  ∃ pred' dist',
    for_each (successors g current) (relax current) (pred, dist, q)
      = Ret (pred', dist', q ++ successors g current)
    ∧ bfs_inv g s0 Good None pred' dist' (q ++ successors g current).
Proof.
  intros [Hstart Hpred Hdom Hq Hclosed].
  apply Forall_cons in Hq as [[[d Hd] Hgood] Hq].
  assert (Hinv : bfs_inv g s0 Good (Some (id current)) pred dist q).
  { split; [done..|]. intros u du Hu Hex.
    destruct (Hclosed u du Hu) as [Hin|Hsucc]; [done| |by right].
    left. cbn in Hin. apply elem_of_cons in Hin as [->|Hin]; [done|done]. }
  destruct (relax_loop_inv current d (successors g current) pred dist q
              Hinv Hd Hgood) as (pred' & dist' & Hrun & Hinv' & Hd' & Hws & _).
  { by apply Forall_forall. }
  exists pred', dist'. split; [done|].
  destruct Hinv' as [Hstart' Hpred' Hdom' Hq' Hclosed']. split; [done..|].
  intros u du Hu _. destruct (decide (u = id current)) as [->|Hne].
  - right. intros w Hw. rewrite Hd' in Hu. injection Hu as <-.
    rewrite Forall_forall in Hws. by apply Hws.
  - apply Hclosed'; [done|]. by intros [= ->].
Qed.

(** When the search loop returns, its tables are closed under the edges
    of the graph. *)
Lemma bfs_inv_final fuel : ∀ pred dist q pred' dist',
  bfs fuel g pred dist q = Ret (pred', dist') →
  bfs_inv g s0 Good None pred dist q →
  bfs_inv g s0 Good None pred' dist' [].
Proof.
  induction fuel as [|fuel IH]; intros pred dist q pred' dist'.
  - destruct q; [|done]. by intros [= <- <-].
  - destruct q as [|current q]; [by intros [= <- <-]|]. cbn [bfs].
    intros Hrun Hinv.
    destruct (bfs_step_inv current pred dist q Hinv)
      as (pred1 & dist1 & Hstep & Hinv1).
    rewrite Hstep in Hrun. revert Hrun. run. intros Hrun. by eapply IH.
Qed.

(** The search loop raises nothing. *)
Lemma bfs_no_raise fuel : ∀ pred dist q e,
  bfs_inv g s0 Good None pred dist q →
  bfs fuel g pred dist q ≠ Raise e.
Proof.
  induction fuel as [|fuel IH]; intros pred dist q e Hinv.
  - by destruct q.
  - destruct q as [|current q]; [done|]. cbn [bfs].
    destruct (bfs_step_inv current pred dist q Hinv)
      as (pred1 & dist1 & -> & Hinv1).
    run. by apply IH.
Qed.
End Search.

Lemma walk_app_l g l1 l2 : walk g (l1 ++ l2) → walk g l1.
Proof.
  intros Hw i u v Hu Hv. apply (Hw i); by apply lookup_app_l_Some.
Qed.

Lemma walk_last_edge g l u v : walk g (l ++ [u; v]) → edge g u v.
Proof.
  intros Hw. apply (Hw (length l)).
  - by rewrite lookup_app_r, Nat.sub_diag.
  - rewrite lookup_app_r by lia. by replace (S (length l) - length l) with 1 by lia.
Qed.

Lemma walk_snoc g l u v : walk g (l ++ [u]) → edge g u v → walk g (l ++ [u; v]).
Proof.
  intros Hw He i a b Ha Hb.
  destruct (decide (S i < length (l ++ [u]))) as [Hlt|Hge].
  - apply (Hw i).
    + change [u; v] with ([u] ++ [v]) in Ha. rewrite app_assoc in Ha.
      rewrite lookup_app_l in Ha; [done|lia].
    + change [u; v] with ([u] ++ [v]) in Hb. rewrite app_assoc in Hb.
      by rewrite lookup_app_l in Hb.
  - rewrite length_app in Hge. cbn in Hge.
    apply lookup_lt_Some in Hb as Hlen. rewrite length_app in Hlen.
    cbn in Hlen. assert (i = length l) as -> by lia.
    rewrite lookup_app_r, Nat.sub_diag in Ha by done.
    rewrite lookup_app_r in Hb by lia.
    replace (S (length l) - length l) with 1 in Hb by lia.
    cbn in Ha, Hb. congruence.
Qed.

Section SearchResult.
Variable g : DAG.
Variable s0 : nat.
Variable Good : Node → Prop.
Variables (pred : gmap nat (option Node)) (dist : gmap nat nat).
Hypothesis final : bfs_inv g s0 Good None pred dist [].

(** After the search, the distance of a node is at most the number of
    edges of any walk from the start to it. *)
Lemma dist_le_walk l : ∀ v,
  walk g l → head l = Some s0 → last l = Some v →
  ∃ d, dist !! v = Some d ∧ d + 1 ≤ length l.
Proof.
  induction l as [|x l IH] using rev_ind; intros v Hw Hhead Hlast; [done|].
  rewrite last_snoc in Hlast. injection Hlast as ->.
  destruct (last l) as [u|] eqn:Hu.
  - apply last_Some in Hu as [l' ->].
    destruct (IH u) as (du & Hdu & Hle).
    + by eapply walk_app_l.
    + destruct l'; cbn in *; done.
    + done.
    + rewrite <- app_assoc in Hw. cbn in Hw. apply walk_last_edge in Hw.
      destruct (bi_closed _ _ _ _ _ _ _ final u du Hdu) as [Hin|Hsucc];
        [done|by apply elem_of_nil in Hin|].
      unfold edge in Hw. apply list_elem_of_fmap in Hw as (w & -> & Hw).
      destruct (Hsucc w Hw) as (dw & Hdw & Hle').
      exists dw. split; [done|]. rewrite !length_app in *. cbn in *. lia.
  - apply last_None in Hu as ->. cbn in Hhead. injection Hhead as ->.
    exists 0. split; [apply final|]. cbn. lia.
Qed.

(** After the search, walking the predecessors back from a node at
    distance [d] gives a walk of [d] edges from the start to it. *)
Lemma reconstruct_walk d : ∀ c fuel path P,
  dist !! id c = Some d →
  reconstruct fuel pred (Some c) path = Ret P →
  ∃ front, P = front ++ c :: path ∧ length front = d
           ∧ walk g (id <$> front ++ [c])
           ∧ head (id <$> front ++ [c]) = Some s0
           ∧ Forall Good front.
Proof.
  destruct final as [[Hs0d Hs0p] Hpred Hdom Hq Hclosed].
  induction d as [|d IH]; intros c fuel path P Hd Hrun;
    (destruct fuel as [|fuel]; [done|]); cbn [reconstruct] in Hrun.
  - assert (id c = s0) as Hc.
    { destruct (decide (id c = s0)) as [|Hne]; [done|].
      destruct (Hpred _ _ Hd Hne) as (u & du & _ & _ & Hle & _). lia. }
    rewrite Hc, Hs0p in Hrun. revert Hrun. run.
    destruct fuel; cbn; intros [= <-]; exists []; cbn;
      (repeat split; [by intros [|i] ? ?|by rewrite Hc|constructor]).
  - assert (id c ≠ s0) as Hc by (intros Heq; rewrite Heq, Hs0d in Hd; done).
    destruct (Hpred _ _ Hd Hc) as (u & du & Hpu & Hdu & Hle & He & Hg).
    assert (du = d) as ->.
    { destruct (Hclosed _ _ Hdu) as [Hin|Hsucc];
        [done|by apply elem_of_nil in Hin|].
      unfold edge in He. apply list_elem_of_fmap in He as (w & Hw & Hin).
      destruct (Hsucc w Hin) as (dw & Hdw & Hle').
      rewrite <- Hw, Hd in Hdw. injection Hdw as <-. lia. }
    rewrite Hpu in Hrun. revert Hrun. run. intros Hrun.
    destruct (IH u fuel (c :: path) P Hdu Hrun)
      as (front & -> & Hlen & Hwalk & Hhead & Hgood).
    exists (front ++ [u]). rewrite <- app_assoc. split; [done|].
    split; [rewrite length_app; cbn; lia|]. split; [|split].
    + rewrite <- app_assoc, fmap_app. cbn. rewrite fmap_app in Hwalk.
      by apply walk_snoc.
    + rewrite <- app_assoc, fmap_app. rewrite fmap_app in Hhead.
      destruct (id <$> front); done.
    + apply Forall_app. split; [done|]. by repeat constructor.
Qed.
End SearchResult.

Lemma bfs_inv_init g start (Good : Node → Prop) :
  Good start →
  bfs_inv g (id start) Good None {[id start := None]} {[id start := 0]}
          [start].
Proof.
  intros Hgood. split.
  - by rewrite !lookup_singleton_eq.
  - intros v d Hv Hne. by rewrite lookup_singleton_ne in Hv.
  - intros v. destruct (decide (v = id start)) as [->|Hne].
    + intros _. rewrite lookup_singleton_eq. eauto.
    + rewrite lookup_singleton_ne by done. by intros [? ?].
  - repeat constructor; [|done]. rewrite lookup_singleton_eq. eauto.
  - intros u du Hu _. left. destruct (decide (u = id start)) as [->|Hne].
    + cbn. apply elem_of_cons. by left.
    + by rewrite lookup_singleton_ne in Hu.
Qed.

Lemma reconstruct_Ret_pred fuel pred c path P :
  reconstruct fuel pred (Some c) path = Ret P → is_Some (pred !! id c).
Proof.
  destruct fuel as [|fuel]; [done|]. cbn [reconstruct].
  destruct (pred !! id c); [eauto|done].
Qed.

(** X11.  The search finds a shortest path.  When the search loop and
    the walk back along the predecessors both return, in any graph, the
    path leads from [start] to [end] along edges of the graph, and no
    walk from [start] to [end] has fewer nodes. *)
Theorem search_finds_shortest_path g start end_ fuel1 fuel2 pred dist path :
  bfs fuel1 g {[id start := None]} {[id start := 0]} [start]
    = Ret (pred, dist) →
  reconstruct fuel2 pred (Some end_) [] = Ret path →
  head (id <$> path) = Some (id start)
  ∧ last path = Some end_
  ∧ walk g (id <$> path)
  ∧ ∀ l, walk g l → head l = Some (id start) → last l = Some (id end_) →
         length path ≤ length l.
Proof.
  intros Hbfs Hpath.
  assert (Hfinal : bfs_inv g (id start) (λ _, True) None pred dist []).
  { eapply bfs_inv_final; [done|exact Hbfs|by apply bfs_inv_init]. }
  destruct (bi_dom _ _ _ _ _ _ _ Hfinal (id end_)) as [d Hd];
    [by eapply reconstruct_Ret_pred|].
  destruct (reconstruct_walk g (id start) _ pred dist Hfinal d end_ fuel2 []
              path Hd Hpath) as (front & -> & Hlen & Hwalk & Hhead & _).
  split; [done|]. split; [by rewrite last_snoc|].
  split; [done|]. intros l Hl Hl0 Hl1.
  destruct (dist_le_walk g (id start) _ pred dist Hfinal l (id end_) Hl Hl0 Hl1)
    as (d' & Hd' & Hle).
  rewrite Hd in Hd'. injection Hd' as <-. rewrite length_app. cbn. lia.
Qed.

Lemma search_finds_shortest_path_witness :
  head (id <$> path_iii) = Some 0
  ∧ last path_iii = Some (mkNode None 4)
  ∧ walk graph_iii (id <$> path_iii)
  ∧ ∀ l, walk graph_iii l → head l = Some 0 → last l = Some 4 →
         length path_iii ≤ length l.
Proof.
  eapply (search_finds_shortest_path graph_iii (mkNode None 0) (mkNode None 4)
            20 20).
  - vm_compute. reflexivity.
  - vm_compute. reflexivity.
Defined.

(** ** The length of the result *)

Lemma join_values_length l : ∀ r,
  Forall (λ u, ∀ x, value u = Some x → length x ≤ 1) l →
  join_values l = Ret r → length r ≤ length l.
Proof.
  induction l as [|u l IH]; intros r Hl; cbn [join_values].
  - by intros [= <-].
  - apply Forall_cons in Hl as [Hu Hl].
    destruct (value u) as [x|] eqn:Hx; run; [|done].
    destruct (join_values l) as [rest| |]; run; [|done..].
    intros [= <-]. rewrite length_app. specialize (Hu x eq_refl).
    specialize (IH rest Hl eq_refl). cbn. lia.
Qed.

Lemma chain_values s u x : u ∈ chain s → value u = Some x → length x ≤ 1.
Proof.
  unfold chain, pre.
  intros [[->|Hu]%elem_of_cons| ->%list_elem_of_singleton]%elem_of_app;
    [done| |done].
  apply elem_of_lookup_imap_1 in Hu as (i & c & -> & _). by intros [= <-].
Qed.

Lemma seq_walk s g : graph_inv s g → walk g (seq 0 (S (S (length s)))).
Proof.
  intros Hinv i u v Hu Hv.
  apply lookup_seq in Hu as [-> _]. apply lookup_seq in Hv as [-> Hlt].
  apply (inv_chain_edges s g Hinv). lia.
Qed.

(** What a run of [shorten_optimal] that returns went through: the
    graph, and the path as the nodes before [end]. *)
Lemma shorten_optimal_path fuel idx s r :
  shorten_optimal fuel idx s = Ret r →
  ∃ g front,
    build_graph fuel idx s = Ret (g, mkNode None 0, mkNode None (S (length s)))
    ∧ join_values (inner (front ++ [mkNode None (S (length s))])) = Ret r
    ∧ length front ≤ S (length s)
    ∧ Forall (λ u, u ∈ nodes g) front
    ∧ walk g (id <$> front ++ [mkNode None (S (length s))])
    ∧ head (id <$> front ++ [mkNode None (S (length s))]) = Some 0.
Proof.
  unfold shorten_optimal.
  destruct (build_graph fuel idx s) as [[[g start] end_]| |] eqn:Hg;
    run; [|done..].
  destruct (build_graph_inv _ _ _ _ _ _ Hg) as (Hinv & -> & -> & Hnodes).
  destruct (bfs fuel g _ _ _) as [[pred dist]| |] eqn:Hbfs; run; [|done..].
  destruct (reconstruct fuel pred _ _) as [path| |] eqn:Hpath; run; [|done..].
  intros Hjoin. pose proof (inv_wf s g Hinv) as Hwf.
  assert (Hfinal : bfs_inv g 0 (λ u, u ∈ nodes g) None pred dist []).
  { eapply bfs_inv_final; [apply (wf_from g Hwf)|exact Hbfs|].
    apply (bfs_inv_init g (mkNode None 0)).
    rewrite Hnodes. unfold chain, pre. rewrite <- !app_assoc. cbn.
    apply elem_of_cons. by left. }
  destruct (bi_dom _ _ _ _ _ _ _ Hfinal (S (length s))) as [d Hd];
    [by apply (reconstruct_Ret_pred _ _ _ _ _ Hpath)|].
  destruct (reconstruct_walk g 0 _ pred dist Hfinal d
              (mkNode None (S (length s))) fuel [] path Hd Hpath)
    as (front & -> & Hlen & Hwalk & Hhead & Hgood).
  destruct (dist_le_walk g 0 _ pred dist Hfinal (seq 0 (S (S (length s))))
              (S (length s))) as (d' & Hd' & Hle).
  { by apply seq_walk. }
  { done. }
  { rewrite seq_S. by rewrite last_snoc. }
  rewrite Hd in Hd'. injection Hd' as <-. rewrite length_seq in Hle.
  exists g, front. repeat split; [done..|lia|done|done|done].
Qed.

Lemma inner_snoc {A} (front : list A) (x : A) :
  inner (front ++ [x]) = tail front.
Proof.
  unfold inner. destruct front as [|y front]; [done|].
  cbn [app tail]. apply removelast_last.
Qed.

(** The values along a path of at most [length s + 1] nodes before
    [end], each of at most one code point, make a string that is not
    longer than [s]. *)
Lemma path_join_length (idx : list (pystr * list pystr)) s g front r :
  Forall (λ item, ∀ sc, item.2 !! 0 = Some sc → length sc ≤ 1) idx →
  nodes g = chain s
            ++ imap (λ i item, mkNode (item.2 !! 0) (length s + 2 + i)) idx →
  Forall (λ u, u ∈ nodes g) front → length front ≤ S (length s) →
  join_values (tail front) = Ret r →
  length r ≤ length s.
Proof.
  intros Hidx Hnodes Hgood Hlen Hjoin.
  apply join_values_length in Hjoin.
  - destruct front; cbn in *; lia.
  - apply Forall_forall. intros u Hu x Hx.
    assert (Hin : u ∈ nodes g).
    { rewrite Forall_forall in Hgood. apply Hgood.
      destruct front; [by apply elem_of_nil in Hu|].
      apply elem_of_cons. by right. }
    rewrite Hnodes in Hin. apply elem_of_app in Hin as [Hin|Hin].
    + by eapply chain_values.
    + apply elem_of_lookup_imap_1 in Hin as (i & item & -> & Hitem).
      rewrite Forall_forall in Hidx. apply (Hidx item); [|done].
      by eapply list_elem_of_lookup_2.
Qed.

(** X12.  When the first shortcut of every entry is at most one code
    point long, as in the index of the pipeline, the string that
    [shorten_optimal] returns is never longer than the target. *)
Theorem shorten_never_longer idx s fuel r :
  Forall (λ item, ∀ sc, item.2 !! 0 = Some sc → length sc ≤ 1) idx →
  shorten_optimal fuel idx s = Ret r →
  length r ≤ length s.
Proof.
  intros Hidx Hrun.
  destruct (shorten_optimal_path _ _ _ _ Hrun)
    as (g & front & Hg & Hjoin & Hlen & Hgood & _).
  destruct (build_graph_inv _ _ _ _ _ _ Hg) as (_ & _ & _ & Hnodes).
  rewrite inner_snoc in Hjoin. by eapply path_join_length.
Qed.

Lemma shorten_never_longer_witness :
  length small_roman_two ≤ length (lit "iii").
Proof.
  apply (shorten_never_longer idx_ii (lit "iii") 20 small_roman_two).
  - apply Forall_cons. split; [|constructor].
    cbn. intros sc' [= <-]. cbn. lia.
  - vm_compute. reflexivity.
Defined.

(** Every index that the pipeline builds from a mapping table is an
    optimized index with single code points as shortcuts. *)
Lemma pipeline_index_single table parsed idx :
  parse_table table = Ret parsed →
  optimize (create_lookup parsed) = Ret idx →
  is_optimized idx ∧ single_shortcuts idx.
Proof.
  intros Hparse Hopt. split; [by exists (create_lookup parsed)|].
  apply Forall_forall. intros [long kept] Hin.
  apply Forall_forall. intros sc Hsc. cbn in Hsc.
  destruct (index_shortcuts_in_parsed _ _ _ _ _ Hopt Hin Hsc) as [Hp _].
  destruct (parse_table_entries_ok _ _ Hparse) as [_ Hall].
  rewrite Forall_forall in Hall. destruct (Hall _ Hp) as (i & Hi & _).
  cbn in Hi. by rewrite Hi.
Qed.



(** ** [shorten_url] *)

Lemma pipeline_shortcuts_single table parsed idx :
  parse_table table = Ret parsed →
  optimize (create_lookup parsed) = Ret idx →
  Forall (λ item, ∀ sc, item.2 !! 0 = Some sc → length sc ≤ 1) idx.
Proof.
  intros Hparse Hopt. apply Forall_forall. intros [long kept] Hin sc Hsc.
  cbn in Hsc. apply list_elem_of_lookup_2 in Hsc.
  destruct (index_shortcuts_in_parsed _ _ _ _ _ Hopt Hin Hsc) as [Hp _].
  destruct (parse_table_entries_ok _ _ Hparse) as [_ Hall].
  rewrite Forall_forall in Hall. destruct (Hall _ Hp) as (i & Hi & _).
  cbn in Hi. by rewrite Hi.
Qed.

(** X13.  [shorten_url] never reports a longer string: the two lengths
    it prints are those of the url and of the result, and the second is
    at most the first. *)
Theorem shorten_url_never_longer fuel table url n m shortened :
  shorten_url fuel table url = Ret (n, m, shortened) →
  n = length url ∧ m = length shortened ∧ m ≤ n.
Proof.
  unfold shorten_url.
  destruct (parse_table table) as [parsed| |] eqn:Hparse; run; [|done..].
  destruct (optimize (create_lookup parsed)) as [idx| |] eqn:Hopt;
    run; [|done..].
  destruct (shorten_optimal fuel idx url) as [r| |] eqn:Hrun; run; [|done..].
  destruct (encode_utf8 r) as [[]| |]; run; [|done..].
  intros [= <- <- <-]. do 2 (split; [done|]).
  destruct (shorten_optimal_path _ _ _ _ Hrun)
    as (g & front & Hg & Hjoin & Hlen & Hgood & _).
  destruct (build_graph_inv _ _ _ _ _ _ Hg) as (_ & _ & _ & Hnodes).
  rewrite inner_snoc in Hjoin.
  eapply path_join_length; [|done..].
  by eapply pipeline_shortcuts_single.
Qed.

Lemma shorten_url_never_longer_witness :
  3 = length (lit "iii") ∧ 1 = length small_roman_two ∧ 1 ≤ 3.
Proof.
  apply (shorten_url_never_longer 20 table_ii). vm_compute. reflexivity.
Defined.

(** X14.  With a table of at most eleven lines, which is all header,
    [shorten_url] returns the url as it is, and reports its length
    twice, when the url holds no surrogate; when it holds one, the
    lengths are printed and line 224 raises [UnicodeEncodeError]. *)
Theorem shorten_url_header_only fuel table url :
  length (split table nl) ≤ 11 → length url + 2 < fuel →
  shorten_url fuel table url
  = if existsb is_surrogate url then Raise UnicodeEncodeError
    else Ret (length url, length url, url).
Proof.
  intros Hlen Hfuel. unfold shorten_url.
  rewrite (parse_table_short table Hlen). run.
  change (optimize (create_lookup [])) with (Ret (@nil (pystr * list pystr))).
  run. rewrite shorten_no_match; [|constructor|lia]. run.
  unfold encode_utf8. by destruct (existsb is_surrogate url).
Qed.

Lemma shorten_url_header_only_witness :
  shorten_url 10 line_A (lit "cabcabc") = Ret (7, 7, lit "cabcabc")
  ∧ shorten_url 10 line_A (lit "cab" ++ [56448%N])
    = Raise UnicodeEncodeError.
Proof.
  split.
  - apply (shorten_url_header_only 10 line_A (lit "cabcabc")).
    + apply Nat.leb_le. vm_compute. reflexivity.
    + apply Nat.ltb_lt. vm_compute. reflexivity.
  - apply (shorten_url_header_only 10 line_A (lit "cab" ++ [56448%N])).
    + apply Nat.leb_le. vm_compute. reflexivity.
    + apply Nat.ltb_lt. vm_compute. reflexivity.
Defined.

(** ** Exceptions *)

Lemma is_prefix_length p t : is_prefix p t = true → length p ≤ length t.
Proof.
  revert t. induction p as [|a p IH]; intros [|b t]; cbn; try done; [lia|].
  case_decide; [|done]. intros Hp. specialize (IH t Hp). lia.
Qed.

Lemma find_from_bounds sub t : ∀ i p,
  find_from sub t i = Some p → i ≤ p ∧ p - i + length sub ≤ length t.
Proof.
  induction t as [|a t IH]; intros i p; cbn [find_from].
  - destruct (is_prefix sub []) eqn:Hp; [|done]. intros [= <-].
    apply is_prefix_length in Hp. lia.
  - destruct (is_prefix sub (a :: t)) eqn:Hp.
    + intros [= <-]. apply is_prefix_length in Hp. lia.
    + intros Hf. apply IH in Hf. cbn. lia.
Qed.

Lemma find_bounds s sub pos :
  (0 ≤ pos)%Z → find s sub pos ≠ (-1)%Z →
  (pos ≤ find s sub pos)%Z
  ∧ (find s sub pos + Z.of_nat (length sub) ≤ Z.of_nat (length s))%Z.
Proof.
  intros Hpos. unfold find.
  destruct (Z.ltb_spec (Z.of_nat (length s)) pos) as [|Hle]; [done|].
  destruct (find_from sub _ _) as [p|] eqn:Hf; [|done]. intros _.
  apply find_from_bounds in Hf. rewrite length_drop in Hf. lia.
Qed.

Lemma py_index_in_range {A} (l : list A) i :
  (0 ≤ i < Z.of_nat (length l))%Z → ∃ x, py_index l i = Ret x.
Proof.
  intros Hi. unfold py_index.
  destruct (Z.ltb_spec i 0) as [|_]; [lia|].
  destruct (lookup_lt_is_Some_2 l (Z.to_nat i)) as [x ->]; [lia|].
  by exists x.
Qed.

Lemma occurrences_no_raise s long cn n e fuel : ∀ g start_pos,
  long ≠ [] → length cn = length s → (0 ≤ start_pos)%Z →
  occurrences fuel s long cn n g start_pos ≠ Raise e.
Proof.
  induction fuel as [|fuel IH]; intros g start_pos Hlong Hcn Hpos; [done|].
  cbn [occurrences].
  destruct (Z.eqb_spec (find s long start_pos) (-1)) as [|Hfound]; [done|].
  destruct (find_bounds s long start_pos Hpos Hfound) as [Hlo Hhi].
  assert (0 < length long) by (destruct long; [done|cbn; lia]).
  destruct (py_index_in_range cn (find s long start_pos)) as [sn ->]; [lia|].
  destruct (py_index_in_range cn
              (find s long start_pos + Z.of_nat (length long) - 1))
    as [en ->]; [lia|].
  run. apply IH; [done..|lia].
Qed.

Lemma for_each_no_raise {A S} (body : S → A → result S) e l :
  (∀ st x, x ∈ l → body st x ≠ Raise e) →
  ∀ st, for_each l body st ≠ Raise e.
Proof.
  induction l as [|x l IH]; intros Hbody st; [done|]. cbn [for_each].
  destruct (body st x) as [st'| |] eqn:Hrun; run; [|by intros [= ->]; eapply Hbody; [|exact Hrun]; apply elem_of_cons; left|done].
  apply IH. intros st1 y Hy. apply Hbody, elem_of_cons. by right.
Qed.

Lemma build_graph_no_raise fuel idx s e :
  Forall (λ item, item.1 ≠ [] ∧ item.2 ≠ []) idx →
  build_graph fuel idx s ≠ Raise e.
Proof.
  intros Hidx. unfold build_graph.
  destruct (build_chain_spec s) as (g0 & -> & _ & _).
  pose proof (for_each_no_raise (add_shortcut fuel s (tail (pre s))) e idx)
    as Hloop.
  destruct (for_each idx _ g0) as [g| |] eqn:Hrun; run; [done| |done].
  intros [= ->]. eapply Hloop; [|exact Hrun].
  intros g1 [long shortcuts] Hin. rewrite Forall_forall in Hidx.
  destruct (Hidx _ Hin) as [Hlong Hsc]. cbn in Hlong, Hsc.
  unfold add_shortcut. destruct shortcuts as [|sc scs]; [done|].
  cbn [lookup list_lookup]. run. cbn [add_node].
  apply occurrences_no_raise; [done| |done].
  unfold pre. cbn [tail]. apply length_imap.
Qed.

Lemma find_empty s pos :
  (0 ≤ pos ≤ Z.of_nat (length s))%Z → find s [] pos = pos.
Proof.
  intros Hpos. unfold find.
  destruct (Z.ltb_spec (Z.of_nat (length s)) pos) as [|_]; [lia|].
  destruct (drop (Z.to_nat pos) s); cbn; lia.
Qed.

Lemma py_index_past_end {A} (l : list A) i :
  (Z.of_nat (length l) ≤ i)%Z → py_index l i = Raise IndexError.
Proof.
  intros Hi. unfold py_index.
  destruct (Z.ltb_spec i 0) as [|_]; [lia|].
  by rewrite lookup_ge_None_2 by lia.
Qed.

(** With the empty string as key the loop over the occurrences runs off
    the end of [char_nodes]. *)
Lemma occurrences_empty_key s cn n fuel : ∀ g start_pos g',
  length cn = length s → (0 ≤ start_pos ≤ Z.of_nat (length s))%Z →
  occurrences fuel s [] cn n g start_pos ≠ Ret g'.
Proof.
  induction fuel as [|fuel IH]; intros g start_pos g' Hcn Hpos; [done|].
  cbn [occurrences]. rewrite find_empty by done.
  destruct (Z.eqb_spec start_pos (-1)) as [|_]; [lia|].
  destruct (decide (start_pos = Z.of_nat (length s))) as [->|Hlt].
  - by rewrite (py_index_past_end cn (Z.of_nat (length s))) by lia.
  - destruct (py_index cn start_pos); [|done..]. run.
    destruct (py_index cn _); [|done..]. run. apply IH; [done|lia].
Qed.

Lemma for_each_Ret_elem {A S} (body : S → A → result S) l x :
  x ∈ l → ∀ st st', for_each l body st = Ret st' →
  ∃ st1 st2, body st1 x = Ret st2.
Proof.
  induction l as [|y l IH]; intros Hx st st'; [by apply elem_of_nil in Hx|].
  cbn [for_each]. destruct (body st y) as [st1| |] eqn:Hy; run; [|done..].
  apply elem_of_cons in Hx as [->|Hx]; [eauto|]. by apply IH.
Qed.

Lemma occurrences_raises s long cn n e fuel : ∀ g start_pos,
  occurrences fuel s long cn n g start_pos = Raise e → e = IndexError.
Proof.
  assert (Hpy : ∀ i x, py_index cn i = Raise x → x = IndexError).
  { intros i x. unfold py_index.
    destruct (i <? 0)%Z; [destruct (i <? _)%Z|];
      try destruct (cn !! _); cbn; congruence. }
  induction fuel as [|fuel IH]; intros g start_pos; [done|].
  cbn [occurrences]. destruct (_ =? -1)%Z; [done|].
  destruct (py_index cn (find s long start_pos)) as [sn|e1|] eqn:H1;
    run; [|intros [= Heq]; subst; by eapply Hpy|done].
  destruct (py_index cn (find s long start_pos + Z.of_nat (length long) - 1))
    as [en|e2|] eqn:H2;
    run; [|intros [= Heq]; subst; by eapply Hpy|done].
  apply IH.
Qed.

Lemma for_each_raises {A S} (body : S → A → result S) (P : exn → Prop) l :
  (∀ st x e, body st x = Raise e → P e) →
  ∀ st e, for_each l body st = Raise e → P e.
Proof.
  intros Hbody. induction l as [|x l IH]; intros st e; [done|].
  cbn [for_each]. destruct (body st x) as [st'|e'|] eqn:Hx; run; [apply IH| |done].
  intros [= Heq]. subst. by eapply Hbody.
Qed.

Lemma build_graph_raises fuel idx s e :
  build_graph fuel idx s = Raise e → e = IndexError.
Proof.
  unfold build_graph. destruct (build_chain_spec s) as (g0 & -> & _ & _).
  destruct (for_each idx _ g0) as [g|e'|] eqn:Hrun; run; [done| |done].
  intros [= Heq]. rewrite <- Heq.
  eapply (for_each_raises _ (λ x, x = IndexError)); [|exact Hrun].
  intros g1 [long shortcuts] e1. unfold add_shortcut.
  destruct (shortcuts !! 0); run; [|by intros [= <-]]. cbn [add_node].
  apply occurrences_raises.
Qed.

Lemma build_graph_shortcuts fuel idx s r :
  build_graph fuel idx s = Ret r → Forall (λ item, item.2 ≠ []) idx.
Proof.
  intros Hg. apply Forall_forall. intros [long shortcuts] Hin.
  unfold build_graph in Hg.
  destruct (build_chain_spec s) as (g0 & Heq & _ & _). rewrite Heq in Hg.
  destruct (for_each idx _ g0) as [g1| |] eqn:Hrun; [|done..].
  destruct (for_each_Ret_elem _ _ _ Hin _ _ Hrun) as (g2 & g3 & Hitem).
  unfold add_shortcut in Hitem. cbn. by destruct shortcuts.
Qed.

Lemma reconstruct_no_raise g s0 Good pred dist e :
  bfs_inv g s0 Good None pred dist [] →
  ∀ fuel c path, is_Some (dist !! id c) →
                 reconstruct fuel pred (Some c) path ≠ Raise e.
Proof.
  intros [[Hs0d Hs0p] Hpred _ _ _].
  induction fuel as [|fuel IH]; intros c path [d Hd]; [done|].
  cbn [reconstruct]. destruct (decide (id c = s0)) as [Hc|Hc].
  - rewrite Hc, Hs0p. run. by destruct fuel.
  - destruct (Hpred _ _ Hd Hc) as (u & du & -> & Hdu & _). run.
    apply IH. eauto.
Qed.

Lemma join_values_no_raise l e :
  Forall (λ u, is_Some (value u)) l → join_values l ≠ Raise e.
Proof.
  induction 1 as [|u l [x Hx] _ IH]; [done|]. cbn [join_values].
  rewrite Hx. run. destruct (join_values l); run; done.
Qed.

(** The nodes of a path between its two ends have values. *)
Lemma inner_values s (idx : list (pystr * list pystr)) g front :
  Forall (λ item, item.2 ≠ []) idx →
  graph_inv s g →
  nodes g = chain s
            ++ imap (λ i item, mkNode (item.2 !! 0) (length s + 2 + i)) idx →
  Forall (λ u, u ∈ nodes g) front →
  walk g (id <$> front ++ [mkNode None (S (length s))]) →
  Forall (λ u, is_Some (value u)) (tail front).
Proof.
  intros Hidx Hinv Hnodes Hgood Hwalk. apply Forall_lookup. intros j u Hu.
  rewrite lookup_tail in Hu.
  assert (Hlt : S j < length front) by (by eapply lookup_lt_Some).
  destruct (lookup_lt_is_Some_2 front j) as [a Ha]; [lia|].
  destruct (lookup_lt_is_Some_2 (front ++ [mkNode None (S (length s))])
              (S (S j))) as [b Hb].
  { rewrite length_app. cbn. lia. }
  assert (Hau : edge g (id a) (id u)).
  { apply (Hwalk j); rewrite list_lookup_fmap.
    - by rewrite (lookup_app_l_Some _ _ _ _ Ha).
    - by rewrite (lookup_app_l_Some _ _ _ _ Hu). }
  assert (Hub : edge g (id u) (id b)).
  { apply (Hwalk (S j)); rewrite list_lookup_fmap.
    - by rewrite (lookup_app_l_Some _ _ _ _ Hu).
    - by rewrite Hb. }
  apply (inv_sentinels s g Hinv) in Hau as [Hu0 _].
  apply (inv_sentinels s g Hinv) in Hub as [_ Huend].
  assert (Hin : u ∈ nodes g).
  { rewrite Forall_forall in Hgood. apply Hgood.
    by eapply list_elem_of_lookup_2. }
  rewrite Hnodes in Hin. apply elem_of_app in Hin as [Hin|Hin].
  - unfold chain, pre in Hin.
    apply elem_of_app in Hin as [[->|Hin]%elem_of_cons| ->%list_elem_of_singleton];
      [done| |done].
    apply elem_of_lookup_imap_1 in Hin as (i & c & -> & _). cbn. eauto.
  - apply elem_of_lookup_imap_1 in Hin as (i & item & -> & Hitem). cbn.
    rewrite Forall_forall in Hidx.
    pose proof (Hidx item) as Hne.
    destruct item.2; [|cbn; eauto]. exfalso. apply Hne; [|done].
    by eapply list_elem_of_lookup_2.
Qed.

(** Once the graph is built, nothing is raised. *)
Lemma search_no_raise fuel idx s g start end_ e :
  build_graph fuel idx s = Ret (g, start, end_) →
  ('(pred, _) ← bfs fuel g {[id start := None]} {[id start := 0]} [start];
   path ← reconstruct fuel pred (Some end_) [];
   join_values (inner path)) ≠ Raise e.
Proof.
  intros Hg.
  pose proof (build_graph_shortcuts _ _ _ _ Hg) as Hidx.
  destruct (build_graph_inv _ _ _ _ _ _ Hg) as (Hinv & -> & -> & Hnodes).
  pose proof (inv_wf s g Hinv) as Hwf.
  assert (Hinit : bfs_inv g 0 (λ u, u ∈ nodes g) None
                          {[0 := None]} {[0 := 0]} [mkNode None 0]).
  { apply (bfs_inv_init g (mkNode None 0)).
    rewrite Hnodes. unfold chain, pre. rewrite <- !app_assoc. cbn.
    apply elem_of_cons. by left. }
  pose proof (λ e', bfs_no_raise g 0 _ (wf_from g Hwf) fuel _ _ _ e' Hinit)
    as Hb.
  change (id (mkNode None 0)) with 0.
  destruct (bfs fuel g _ _ _) as [[pred dist]|e0|] eqn:Hbfs;
    run; [|by destruct (Hb e0)|done].
  assert (Hfinal : bfs_inv g 0 (λ u, u ∈ nodes g) None pred dist []).
  { eapply bfs_inv_final; [apply (wf_from g Hwf)|exact Hbfs|done]. }
  destruct (dist_le_walk g 0 _ pred dist Hfinal (seq 0 (S (S (length s))))
              (S (length s))) as (d & Hd & _).
  { by apply seq_walk. }
  { done. }
  { rewrite seq_S. by rewrite last_snoc. }
  pose proof (λ e', reconstruct_no_raise g 0 _ pred dist e' Hfinal fuel
                (mkNode None (S (length s))) [] (ex_intro _ d Hd)) as Hr.
  destruct (reconstruct fuel pred _ _) as [path|e0|] eqn:Hpath;
    run; [|by destruct (Hr e0)|done].
  destruct (reconstruct_walk g 0 _ pred dist Hfinal d
              (mkNode None (S (length s))) fuel [] path Hd Hpath)
    as (front & -> & _ & Hwalk & _ & Hgood).
  rewrite inner_snoc. apply join_values_no_raise.
  by eapply inner_values.
Qed.

(** X15.  With an index whose keys and whose shortcut lists are not
    empty, as [optimize] returns it, [shorten_optimal] raises no
    exception: no index is out of range, no key is missing from [dist]
    or [pred], and no [None] is joined into the result. *)
Theorem shorten_optimal_no_raise idx s fuel e :
  Forall (λ item, item.1 ≠ [] ∧ item.2 ≠ []) idx →
  shorten_optimal fuel idx s ≠ Raise e.
Proof.
  intros Hidx. unfold shorten_optimal.
  pose proof (λ e', build_graph_no_raise fuel idx s e' Hidx) as Hbuild.
  destruct (build_graph fuel idx s) as [[[g start] end_]|e0|] eqn:Hg;
    run; [|by destruct (Hbuild e0)|done].
  by eapply search_no_raise.
Qed.

Lemma shorten_optimal_no_raise_witness :
  shorten_optimal 40 idx_periodic target_periodic ≠ Raise IndexError.
Proof.
  apply shorten_optimal_no_raise.
  repeat (apply Forall_cons; split; [by split|]). constructor.
Defined.

(** X16.  An entry with the empty string as key, or with an empty list
    of shortcuts, makes [shorten_optimal] fail: no string is returned. *)
Theorem shorten_optimal_bad_entry (idx : list (pystr * list pystr)) s fuel r :
  Exists (λ item, item.1 = [] ∨ item.2 = []) idx →
  shorten_optimal fuel idx s ≠ Ret r.
Proof.
  intros Hbad. apply Exists_exists in Hbad as ([long shortcuts] & Hin & Hbad).
  cbn in Hbad. unfold shorten_optimal.
  destruct (build_graph fuel idx s) as [[[g start] end_]| |] eqn:Hg;
    run; [|done..]. exfalso.
  unfold build_graph in Hg.
  destruct (build_chain_spec s) as (g0 & Heq & _ & _). rewrite Heq in Hg.
  destruct (for_each idx _ g0) as [g1| |] eqn:Hrun; [|done..].
  destruct (for_each_Ret_elem _ _ _ Hin _ _ Hrun) as (g2 & g3 & Hitem).
  unfold add_shortcut in Hitem.
  destruct shortcuts as [|sc scs]; [done|].
  destruct Hbad as [->|?]; [|done].
  cbn [lookup list_lookup] in Hitem. revert Hitem. run. cbn [add_node].
  apply occurrences_empty_key; [|lia].
  unfold pre. cbn [tail]. apply length_imap.
Qed.

Lemma shorten_optimal_bad_entry_witness :
  shorten_optimal 9 [(lit "ab", [lit "x"]); ([], [lit "y"])] (lit "cab")
  ≠ Ret (lit "cx").
Proof.
  apply shorten_optimal_bad_entry.
  apply Exists_cons_tl, Exists_cons_hd. by left.
Defined.


(** X17.  The only exception [shorten_optimal] raises is [IndexError], it
    is raised while the graph is built, and it needs an entry with the
    empty string as key or with an empty list of shortcuts: the search,
    the way back along [pred] and the join raise nothing. *)
Theorem shorten_optimal_raises (idx : list (pystr * list pystr)) s fuel e :
  shorten_optimal fuel idx s = Raise e →
  e = IndexError ∧ build_graph fuel idx s = Raise IndexError ∧
  Exists (λ item, item.1 = [] ∨ item.2 = []) idx.
Proof.
  intros Hrun.
  assert (Hbuild : build_graph fuel idx s = Raise e).
  { unfold shorten_optimal in Hrun.
    destruct (build_graph fuel idx s) as [[[g start] end_]|e0|] eqn:Hg;
      revert Hrun; run; [|congruence|done].
    intros Hrun. by destruct (search_no_raise _ _ _ _ _ _ e Hg). }
  pose proof (build_graph_raises _ _ _ _ Hbuild) as ->.
  do 2 (split; [done|]).
  destruct (decide (Forall (λ item : pystr * list pystr,
                              item.1 ≠ [] ∧ item.2 ≠ []) idx))
    as [Hgood|Hbad].
  - by destruct (build_graph_no_raise fuel idx s IndexError Hgood).
  - apply not_Forall_Exists in Hbad; [|solve_decision].
    eapply Exists_impl; [exact Hbad|]. intros [long shortcuts]. cbn.
    intros Hnot.
    destruct (decide (long = [])) as [|Hl]; [by left|].
    destruct (decide (shortcuts = [])) as [|Hs]; [by right|].
    destruct Hnot. by split.
Qed.

Lemma shorten_optimal_raises_witness :
  IndexError = IndexError ∧
  build_graph 9 [(lit "ab", [lit "x"]); ([], [lit "y"])] (lit "cab")
  = Raise IndexError ∧
  Exists (λ item : pystr * list pystr, item.1 = [] ∨ item.2 = [])
    [(lit "ab", [lit "x"]); ([], [lit "y"])].
Proof.
  apply (shorten_optimal_raises _ (lit "cab") 9). vm_compute. reflexivity.
Defined.


(** ** A key that occurs twice *)

Lemma occurs_at_prefix sub s p :
  occurs_at sub s p →
  is_prefix sub (drop p s) = true ∧ p + length sub ≤ length s.
Proof.
  intros (l1 & l2 & -> & <-). rewrite drop_app_length, !length_app.
  split; [apply is_prefix_app|lia].
Qed.

Lemma find_from_least sub : ∀ t i k,
  k ≤ length t → is_prefix sub (drop k t) = true →
  ∃ q, find_from sub t i = Some q ∧ i ≤ q ≤ i + k.
Proof.
  induction t as [|a t IH]; intros i k Hk Hp; cbn [find_from].
  - rewrite drop_nil in Hp. rewrite Hp. exists i. split; [done|lia].
  - destruct (is_prefix sub (a :: t)) eqn:Ha.
    + exists i. split; [done|lia].
    + destruct k as [|k]; [cbn in Hp; congruence|].
      cbn [drop] in Hp. cbn in Hk.
      destruct (IH (S i) k) as (q & Hq & Hle); [lia|done|].
      exists q. split; [done|lia].
Qed.

(** [find] returns a position that is not past an occurrence at or
    after [start]. *)
Lemma find_least s sub start p :
  start ≤ p → p ≤ length s → is_prefix sub (drop p s) = true →
  ∃ q, find s sub (Z.of_nat start) = Z.of_nat q ∧ start ≤ q ≤ p.
Proof.
  intros Hsp Hp Hpre. unfold find.
  destruct (Z.ltb_spec (Z.of_nat (length s)) (Z.of_nat start)) as [|_];
    [lia|].
  rewrite Nat2Z.id.
  destruct (find_from_least sub (drop start s) start (p - start))
    as (q & -> & Hq).
  - rewrite length_drop. lia.
  - rewrite drop_drop. by replace (start + (p - start)) with p by lia.
  - exists q. split; [done|lia].
Qed.

Lemma py_index_char s k :
  k < length s →
  ∃ c, py_index (tail (pre s)) (Z.of_nat k) = Ret (mkNode (Some [c]) (S k)).
Proof.
  intros Hk. unfold py_index, pre. cbn [tail].
  destruct (Z.ltb_spec (Z.of_nat k) 0) as [|_]; [lia|]. rewrite Nat2Z.id.
  destruct (lookup_lt_is_Some_2 s k Hk) as [c Hc]. exists c.
  by rewrite list_lookup_imap, Hc.
Qed.

(** The edges that the two loops of lines 177-180 add. *)
Lemma link_inner_edges n a : ∀ tos g1,
  (∀ u v, edge g1 u v →
     edge (fold_left (λ g2 to_node, add_edge (add_edge g2 a n) n to_node)
                     tos g1) u v)
  ∧ ∀ b, b ∈ tos →
      edge (fold_left (λ g2 to_node, add_edge (add_edge g2 a n) n to_node)
                      tos g1) (id a) (id n)
      ∧ edge (fold_left (λ g2 to_node, add_edge (add_edge g2 a n) n to_node)
                        tos g1) (id n) (id b).
Proof.
  induction tos as [|b tos IH]; intros g1; cbn [fold_left].
  - split; [done|]. by intros b ?%elem_of_nil.
  - destruct (IH (add_edge (add_edge g1 a n) n b)) as [Hmono Hadd].
    assert (Hstep : ∀ u v,
      edge g1 u v ∨ (u = id a ∧ v = id n) ∨ (u = id n ∧ v = id b) →
      edge (add_edge (add_edge g1 a n) n b) u v).
    { intros u v H. rewrite !edge_add_edge. tauto. }
    split.
    + intros u v Huv. apply Hmono, Hstep. by left.
    + intros b' [->|Hb']%elem_of_cons; [|by apply Hadd].
      split; apply Hmono, Hstep; [right; left|right; right]; done.
Qed.

Lemma link_edges g n sn en :
  (∀ u v, edge g u v → edge (link g n sn en) u v)
  ∧ ∀ a w, a ∈ predecessors g sn → edge g (id en) w →
      edge (link g n sn en) (id a) (id n) ∧ edge (link g n sn en) (id n) w.
Proof.
  unfold link. generalize (predecessors g sn). intros froms. revert g.
  induction froms as [|a froms IH]; intros g1; cbn [fold_left].
  - split; [done|]. by intros a w ?%elem_of_nil.
  - destruct (link_inner_edges n a (successors g1 en) g1) as [Hm1 Ha1].
    destruct (IH (fold_left
                    (λ g2 to_node, add_edge (add_edge g2 a n) n to_node)
                    (successors g1 en) g1)) as [Hm2 Ha2].
    split.
    + intros u v Huv. by apply Hm2, Hm1.
    + intros a' w [->|Ha']%elem_of_cons Hw.
      * unfold edge in Hw. apply list_elem_of_fmap in Hw as (b & -> & Hb).
        destruct (Ha1 b Hb). split; by apply Hm2.
      * apply Ha2; [done|]. by apply Hm1.
Qed.

Lemma link_adds g n sn en u w :
  graph_wf g → edge g u (id sn) → edge g (id en) w →
  edge (link g n sn en) u (id n) ∧ edge (link g n sn en) (id n) w.
Proof.
  intros Hwf Hu Hw. unfold edge in Hu. fold (succs_of g u) in Hu.
  apply (wf_mirror g Hwf) in Hu.
  apply list_elem_of_fmap in Hu as (a & -> & Ha).
  by apply link_edges.
Qed.

Lemma occurrences_edges_mono s long cn n fuel : ∀ g start_pos g',
  occurrences fuel s long cn n g start_pos = Ret g' →
  ∀ u v, edge g u v → edge g' u v.
Proof.
  induction fuel as [|fuel IH]; intros g start_pos g'; [done|].
  cbn [occurrences].
  destruct (find s long start_pos =? -1)%Z; [by intros [= <-]|].
  destruct (py_index cn (find s long start_pos)) as [sn| |]; [|done..].
  destruct (py_index cn _) as [en| |]; [|done..]. run.
  intros Hrun u v Huv. eapply IH; [exact Hrun|]. by apply link_edges.
Qed.

Lemma shortcuts_edges_mono s cn fuel idx : ∀ g g',
  for_each idx (add_shortcut fuel s cn) g = Ret g' →
  ∀ u v, edge g u v → edge g' u v.
Proof.
  induction idx as [|[long shortcuts] idx IH]; intros g g'.
  - by intros [= <-].
  - cbn [for_each add_shortcut].
    destruct (shortcuts !! 0) as [shortcut|] eqn:Hsc; run; [|done].
    cbn [add_node].
    destruct (occurrences _ _ _ _ _ _ _) as [g1| |] eqn:Hocc; [|done..]. run.
    intros Hrest u v Huv. eapply IH; [exact Hrest|].
    eapply occurrences_edges_mono; [exact Hocc|]. exact Huv.
Qed.

(** One round of the loop over the occurrences, when there is an
    occurrence at [p], not before [start]: the round is for a position
    [q] that is not past [p]. *)
Lemma occurrences_step s long n fuel g start g' p :
  long ≠ [] → start ≤ p → p + length long ≤ length s →
  is_prefix long (drop p s) = true →
  occurrences fuel s long (tail (pre s)) n g (Z.of_nat start) = Ret g' →
  ∃ fuel' q sn en,
    fuel = S fuel' ∧ start ≤ q ≤ p ∧ id sn = S q ∧ id en = q + length long
    ∧ occurrences fuel' s long (tail (pre s)) n (link g n sn en)
                  (Z.of_nat (S q)) = Ret g'.
Proof.
  intros Hlong Hsp Hp Hpre. destruct fuel as [|fuel]; [done|].
  cbn [occurrences].
  destruct (find_least s long start p) as (q & Hq & Hle); [done|lia|done|].
  rewrite Hq.
  destruct (Z.eqb_spec (Z.of_nat q) (-1)) as [|_]; [lia|].
  assert (Hlen : 0 < length long) by (destruct long; [done|cbn; lia]).
  destruct (py_index_char s q) as [c1 ->]; [lia|].
  replace (Z.of_nat q + Z.of_nat (length long) - 1)%Z
    with (Z.of_nat (q + length long - 1)) by lia.
  destruct (py_index_char s (q + length long - 1)) as [c2 ->]; [lia|]. run.
  replace (Z.of_nat q + 1)%Z with (Z.of_nat (S q)) by lia.
  intros Hrun.
  exists fuel, q, (mkNode (Some [c1]) (S q)),
    (mkNode (Some [c2]) (S (q + length long - 1))).
  split; [done|]. split; [done|]. split; [done|].
  split; [|exact Hrun]. cbn. lia.
Qed.

(** The loop joins the shortcut node [n] to the neighbours of every
    occurrence. *)
Lemma occurrences_adds s long n fuel : ∀ g start g' p u w,
  long ≠ [] →
  graph_inv s g → n ∈ nodes g → id n ≠ 0 → id n ≠ S (length s) →
  occurrences fuel s long (tail (pre s)) n g (Z.of_nat start) = Ret g' →
  start ≤ p → p + length long ≤ length s →
  is_prefix long (drop p s) = true →
  edge g u (S p) → edge g (p + length long) w →
  edge g' u (id n) ∧ edge g' (id n) w.
Proof.
  induction fuel as [|fuel IH];
    intros g start g' p u w Hlong Hinv Hn Hn0 Hnend Hrun Hsp Hp Hpre Hu Hw;
    [done|].
  destruct (occurrences_step _ _ _ _ _ _ _ _ Hlong Hsp Hp Hpre Hrun)
    as (fuel' & q & sn & en & [= <-] & Hq & Hsn & Hen & Hrest).
  destruct (link_inv s g n sn en Hinv Hn Hn0 Hnend) as [Hinv1 Hnodes1].
  destruct (decide (q = p)) as [->|Hne].
  - pose proof (occurrences_edges_mono _ _ _ _ _ _ _ _ Hrest) as Hmono'.
    rewrite <- Hsn in Hu. rewrite <- Hen in Hw.
    destruct (link_adds g n sn en u w (inv_wf s g Hinv) Hu Hw).
    split; by apply Hmono'.
  - apply (IH (link g n sn en) (S q) g' p u w); try done.
    + by rewrite Hnodes1.
    + lia.
    + by apply link_edges.
    + by apply link_edges.
Qed.

(** When an occurrence begins where another one ends, the shortcut node
    becomes its own successor: at the second occurrence it is already a
    predecessor of the start node. *)
Lemma occurrences_self_loop s long n fuel : ∀ g start g' p,
  long ≠ [] →
  graph_inv s g → n ∈ nodes g → id n ≠ 0 → id n ≠ S (length s) →
  occurrences fuel s long (tail (pre s)) n g (Z.of_nat start) = Ret g' →
  start ≤ p → p + length long + length long ≤ length s →
  is_prefix long (drop p s) = true →
  is_prefix long (drop (p + length long) s) = true →
  edge g' (id n) (id n).
Proof.
  induction fuel as [|fuel IH];
    intros g start g' p Hlong Hinv Hn Hn0 Hnend Hrun Hsp Hp Hpre Hpre';
    [done|].
  assert (Hlen : 0 < length long) by (destruct long; [done|cbn; lia]).
  destruct (occurrences_step s long n (S fuel) g start g' p)
    as (fuel' & q & sn & en & [= <-] & Hq & Hsn & Hen & Hrest);
    [done|done|lia|done|done|].
  destruct (link_inv s g n sn en Hinv Hn Hn0 Hnend) as [Hinv1 Hnodes1].
  destruct (decide (q = p)) as [->|Hne].
  - destruct (link_adds g n sn en p (S (p + length long)) (inv_wf s g Hinv))
      as [_ Hout].
    { rewrite Hsn. apply (inv_chain_edges s g Hinv). lia. }
    { rewrite Hen. apply (inv_chain_edges s g Hinv). lia. }
    eapply (occurrences_adds s long n fuel (link g n sn en) (S p) g'
              (p + length long) (id n) (S (p + length long + length long)));
      try done.
    + by rewrite Hnodes1.
    + lia.
    + apply (inv_chain_edges s _ Hinv1). lia.
  - apply (IH (link g n sn en) (S q) g' p); try done.
    + by rewrite Hnodes1.
    + lia.
Qed.

Lemma chain_rtc s g i j :
  graph_inv s g → i ≤ j → j ≤ S (length s) → rtc (edge g) i j.
Proof.
  intros Hinv Hij. induction Hij as [|j Hij IH]; intros Hj; [done|].
  eapply rtc_r; [apply IH; lia|]. apply (inv_chain_edges s g Hinv). lia.
Qed.

(** The edges that make the cycle, for a key with an occurrence at [p]
    and an occurrence at [p'] past the end of the first. *)
Lemma build_graph_repeat fuel idx s g start end_ long shortcuts p p' :
  build_graph fuel idx s = Ret (g, start, end_) →
  (long, shortcuts) ∈ idx → long ≠ [] →
  occurs_at long s p → occurs_at long s p' → p + length long ≤ p' →
  ∃ x, edge g p' x ∧ edge g x (S (p + length long))
       ∧ (p' = p + length long → edge g x x).
Proof.
  intros Hrun Hin Hlong [Hp Hpl]%occurs_at_prefix [Hp' Hpl']%occurs_at_prefix
    Hpp.
  unfold build_graph in Hrun. pose proof (build_chain_inv s) as Hinv0.
  destruct (build_chain_spec s) as (g0 & Heq & _ & _).
  rewrite Heq in *. cbn [fst] in Hinv0.
  destruct (for_each idx _ g0) as [g1| |] eqn:Hloop; revert Hrun; run;
    [|done..].
  intros [= <- <- <-].
  apply list_elem_of_split in Hin as (idx1 & idx2 & ->).
  rewrite for_each_app in Hloop.
  destruct (for_each idx1 _ g0) as [ga| |] eqn:Hloop1; revert Hloop; run;
    [|done..].
  cbn [for_each add_shortcut].
  destruct (shortcuts !! 0) as [shortcut|]; run; [|done].
  cbn [add_node].
  destruct (occurrences _ _ _ _ _ _ _) as [gb| |] eqn:Hocc; run; [|done..].
  intros Hloop2.
  apply shortcuts_inv in Hloop1 as [Hinva _]; [|done].
  pose proof (graph_inv_length s ga Hinva) as Hlen.
  pose proof (graph_inv_add_node s ga (Some shortcut) Hinva) as Hinvn.
  cbn [add_node fst] in Hinvn.
  pose proof (shortcuts_edges_mono _ _ _ _ _ _ Hloop2) as Hmono.
  set (n := mkNode (Some shortcut) (length (nodes ga))) in *.
  assert (Hn : n ∈ nodes (mkDAG (nodes ga ++ [n]) (edges_to ga)
                                (edges_from ga))).
  { cbn. apply elem_of_app. right. by apply list_elem_of_singleton. }
  assert (Hn0 : id n ≠ 0) by (cbn; lia).
  assert (Hnend : id n ≠ S (length s)) by (cbn; lia).
  exists (id n).
  destruct (occurrences_adds s long n fuel _ 0 gb p' p'
              (S (p' + length long)) Hlong Hinvn Hn Hn0 Hnend Hocc)
    as [Hin' _]; [lia|done|done| | |].
  { apply (inv_chain_edges s _ Hinvn). lia. }
  { apply (inv_chain_edges s _ Hinvn). lia. }
  destruct (occurrences_adds s long n fuel _ 0 gb p p
              (S (p + length long)) Hlong Hinvn Hn Hn0 Hnend Hocc)
    as [_ Hout]; [lia|done|done| | |].
  { apply (inv_chain_edges s _ Hinvn). lia. }
  { apply (inv_chain_edges s _ Hinvn). lia. }
  split; [by apply Hmono|]. split; [by apply Hmono|].
  intros ->. apply Hmono.
  by apply (occurrences_self_loop s long n fuel _ 0 gb p Hlong Hinvn Hn Hn0
              Hnend Hocc); [lia|lia|..].
Qed.

(** X18.  The graph of a target in which a key occurs twice without
    overlap is not acyclic, whatever the comment above [class DAG] says:
    the one node of the key lies on a cycle. *)
Theorem build_graph_repeat_cyclic fuel idx s g start end_ long shortcuts p p' :
  build_graph fuel idx s = Ret (g, start, end_) →
  (long, shortcuts) ∈ idx → long ≠ [] →
  occurs_at long s p → occurs_at long s p' → p + length long ≤ p' →
  ¬ acyclic g.
Proof.
  intros Hrun Hin Hlong Hp Hp' Hpp Hacyclic.
  destruct (build_graph_repeat _ _ _ _ _ _ _ _ _ _ Hrun Hin Hlong Hp Hp' Hpp)
    as (x & Hin' & Hout & Hself).
  apply build_graph_inv in Hrun as (Hinv & _).
  apply occurs_at_prefix in Hp' as [_ Hpl'].
  apply (Hacyclic x).
  destruct (decide (p' = p + length long)) as [Heq|Hne].
  - apply tc_once. by apply Hself.
  - eapply tc_r; [|exact Hin'].
    eapply tc_rtc_r; [apply tc_once; exact Hout|].
    apply (chain_rtc s g); [done|lia|lia].
Qed.

Lemma build_graph_repeat_cyclic_witness : ¬ acyclic graph_cabcabc.
Proof.
  apply (build_graph_repeat_cyclic 3 idx_ab cabcabc graph_cabcabc
           n_start n_end (lit "ab") [lit "x"] 1 4).
  - vm_compute. reflexivity.
  - apply list_elem_of_singleton. reflexivity.
  - discriminate.
  - exists (lit "c"), (lit "cabc"). split; reflexivity.
  - exists (lit "cabc"), (lit "c"). split; reflexivity.
  - vm_compute. lia.
Defined.

(** X19.  [shorten_optimal] does not return for such a target: with an
    index without empty keys and without empty lists of shortcuts, as
    [optimize] returns it, the search loop of lines 190-204 is still
    running whatever the number of rounds, since every successor is put
    back into the queue and the nodes of the cycle follow one another. *)
Theorem shorten_optimal_repeat_diverges idx s long shortcuts p p' fuel :
  Forall (λ item, item.1 ≠ [] ∧ item.2 ≠ []) idx →
  (long, shortcuts) ∈ idx →
  occurs_at long s p → occurs_at long s p' → p + length long ≤ p' →
  shorten_optimal fuel idx s = OutOfFuel.
Proof.
  intros Hidx Hin Hp Hp' Hpp. unfold shorten_optimal.
  assert (Hlong : long ≠ []).
  { rewrite Forall_forall in Hidx. by destruct (Hidx _ Hin). }
  pose proof (λ e, build_graph_no_raise fuel idx s e Hidx) as Hbuild.
  destruct (build_graph fuel idx s) as [[[g start] end_]|e0|] eqn:Hg;
    run; [|by destruct (Hbuild e0)|done].
  destruct (build_graph_repeat _ _ _ _ _ _ _ _ _ _ Hg Hin Hlong Hp Hp' Hpp)
    as (x & Hin' & Hout & Hself).
  apply build_graph_inv in Hg as (Hinv & -> & _).
  apply occurs_at_prefix in Hp' as [_ Hpl'].
  assert (Hedge : ∀ (U : list nat) u v, edge g u v → v ∈ U →
            Exists (λ w, id w ∈ U) (default [] (edges_from g !! u))).
  { intros U u v Huv Hv. unfold edge in Huv.
    apply list_elem_of_fmap in Huv as (w & -> & Hw).
    apply Exists_exists. eauto. }
  rewrite (bfs_diverges g (seq 0 (S p') ++ [x])); [done| | |].
  - apply Forall_app. split.
    + apply Forall_forall. intros j [_ Hj]%elem_of_seq.
      destruct (decide (j = p')) as [->|Hne].
      * apply (Hedge _ _ x Hin'). apply elem_of_app. right.
        by apply list_elem_of_singleton.
      * apply (Hedge _ _ (S j)).
        -- apply (inv_chain_edges s g Hinv). lia.
        -- apply elem_of_app. left. apply elem_of_seq. lia.
    + apply Forall_singleton.
      destruct (decide (p' = p + length long)) as [Heq|Hne].
      * apply (Hedge _ _ x (Hself Heq)). apply elem_of_app. right.
        by apply list_elem_of_singleton.
      * apply (Hedge _ _ _ Hout). apply elem_of_app. left.
        apply elem_of_seq. lia.
  - apply Forall_singleton. exists 0. apply lookup_singleton_eq.
  - apply Exists_cons_hd. change (0 ∈ seq 0 (S p') ++ [x]).
    apply elem_of_app. left. apply elem_of_seq. lia.
Qed.

Lemma shorten_optimal_repeat_diverges_witness :
  shorten_optimal 50 idx_ab cabcabc = OutOfFuel.
Proof.
  apply (shorten_optimal_repeat_diverges idx_ab cabcabc (lit "ab")
           [lit "x"] 1 4).
  - apply Forall_singleton. by split.
  - apply list_elem_of_singleton. reflexivity.
  - exists (lit "c"), (lit "cabc"). split; reflexivity.
  - exists (lit "cabc"), (lit "c"). split; reflexivity.
  - vm_compute. lia.
Defined.
